(** * certdir: the certificate-rotation coordinator [Run] and its producers

    A shallow embedding of the Go packages [certdir] (FromDir, FromCommand,
    Times, Run, timePair, check) and [certs] (FromCommand, Times), with the
    properties of the coordination protocol stated over it.

    Go values are modelled as follows.
    - an [error] interface value is [option error], [None] being [nil];
    - [time.Time] is a record of its instant (seconds and nanoseconds) and
      its location; [Time.Equal] and [Time.Before] look at the instant only;
    - a [chan error] of capacity one is a record of its buffer slot and its
      closed flag;
    - goroutines are interleaved by an explicit schedule: [step] executes
      one atomic action of one goroutine (or of the environment) and is
      [None] where that action is not enabled (blocked). *)

From Stdlib Require Import ZArith String List Bool Lia.
From stdpp Require Import base option list strings.
Import ListNotations.

Local Open Scope string_scope.
Local Open Scope Z_scope.
Local Open Scope list_scope.

Set Warnings "-register-all".

(** ** Errors: [context], [github.com/bobg/errors] *)

Module errors.

(** An error value.  [Canceled] and [DeadlineExceeded] are the two
    sentinels of package [context]; [Other] is any other leaf error,
    identified by its description; [Wrapped] is what [errors.Wrap] and
    [errors.Wrapf] build; [Joined] is what [errors.Join] builds. *)
Inductive error : Type :=
| Canceled
| DeadlineExceeded
| Other (what : string)
| Wrapped (err : error) (msg : string)
| Joined (errs : list error).

Fixpoint eqb (a b : error) {struct a} : bool :=
  match a, b with
  | Canceled, Canceled => true
  | DeadlineExceeded, DeadlineExceeded => true
  | Other x, Other y => String.eqb x y
  | Wrapped e m, Wrapped e' m' => eqb e e' && String.eqb m m'
  | Joined l, Joined l' =>
      (fix all2 (l : list error) (l' : list error) {struct l} : bool :=
         match l, l' with
         | [], [] => true
         | x :: xs, y :: ys => eqb x y && all2 xs ys
         | _, _ => false
         end) l l'
  | _, _ => false
  end.

(** [errors.Wrap(err, msg)]: [nil] stays [nil]. *)
Definition Wrap (err : option error) (msg : string) : option error :=
  match err with
  | None => None
  | Some e => Some (Wrapped e msg)
  end.

(** [errors.Join(errs...)]: the [nil] arguments are dropped, and the
    result is [nil] when nothing is left. *)
Definition Join (errs : list (option error)) : option error :=
  match omap id errs with
  | [] => None
  | l => Some (Joined l)
  end.

(** [errors.Is(err, target)] for a non-nil target: the chain of [err] is
    walked through [Unwrap() error] and [Unwrap() []error]. *)
Fixpoint Is_chain (e target : error) {struct e} : bool :=
  eqb e target ||
  match e with
  | Wrapped e' _ => Is_chain e' target
  | Joined l => existsb (fun e' => Is_chain e' target) l
  | _ => false
  end.

Definition Is (err : option error) (target : error) : bool :=
  match err with
  | None => false
  | Some e => Is_chain e target
  end.

End errors.
Import errors.

(** ** [time.Time] *)

Record Time : Type := mkTime {
  sec : Z;            (* seconds since January 1, year 1 *)
  nsec : Z;           (* nanoseconds within the second *)
  loc : string        (* name of the location, the empty string being UTC *)
}.

(** The zero value of [time.Time]. *)
Definition zeroTime : Time := mkTime 0 0 "".

Definition Time_Equal (t u : Time) : bool :=
  (sec t =? sec u) && (nsec t =? nsec u).

Definition Time_Before (t u : Time) : bool :=
  (sec t <? sec u) || ((sec t =? sec u) && (nsec t <? nsec u)).

(** ** [timePair], [os.Stat] and [check] *)

Record timePair : Type := mkPair { cert : Time; key : Time }.

Definition zeroPair : timePair := mkPair zeroTime zeroTime.

(** [func (p timePair) equal(other timePair) bool] *)
Definition equal (p other : timePair) : bool :=
  Time_Equal (cert p) (cert other) && Time_Equal (key p) (key other).

(** The condition [!next.equal(last)] of the loop of Run. *)
Definition changed (previous current : timePair) : bool :=
  negb (equal current previous).

(** What one [os.Stat] call answers: the [ModTime] of the file, or an
    error. *)
Definition stat_result : Type := Time + error.

(** [func check(dir string) (timePair, error)].  The two arguments are the
    answers of the two [os.Stat] calls; the second call is made only when
    the first succeeded. *)
Definition check (dir : string) (certStat keyStat : stat_result)
  : timePair * option error :=
  match certStat with
  | inr err =>
      (zeroPair, Wrap (Some err) ("statting " ++ dir ++ "/fullchain.pem"))
  | inl certTime =>
      match keyStat with
      | inr err =>
          (zeroPair, Wrap (Some err) ("statting " ++ dir ++ "/privkey.pem"))
      | inl keyTime => (mkPair certTime keyTime, None)
      end
  end.

(** ** The coordinator [Run] *)

(** A loaded [tls.Certificate]: the two PEM blocks it was parsed from. *)
Record Certificate : Type := mkCert { certPEM : string; keyPEM : string }.

(** A [chan error] made by [make(chan error, 1)]. *)
Record chan : Type := mkChan {
  buf : option (option error);   (* the one buffer slot *)
  closed : bool
}.

Definition newChan : chan := mkChan None false.

(** A receive: the buffered value if there is one, the zero value [nil]
    from a closed and drained channel, and blocked otherwise. *)
Definition recv (ch : chan) : option (option error * chan) :=
  match buf ch with
  | Some v => Some (v, mkChan None (closed ch))
  | None => if closed ch then Some (None, ch) else None
  end.

(** Where the goroutine [go func() { errCh <- f(fctx, cert); close(errCh) }()]
    stands. *)
Inductive gstate : Type :=
| GSpawned (c : Certificate)             (* started, [f] not yet called *)
| GRunning (ctx : nat) (c : Certificate) (* inside [f(fctx, cert)] *)
| GReturned (res : option error)         (* [f] returned, the send is next *)
| GSent                                  (* sent, [close(errCh)] is next *)
| GExited.

(** An invocation of the consumer is live from the [go] statement until
    [f] returns. *)
Definition live (g : gstate) : bool :=
  match g with
  | GSpawned _ | GRunning _ _ => true
  | _ => false
  end.

(** Where the goroutine that executes [Run] stands. *)
Inductive location : Type :=
| LCheck                                      (* next, err := check(dir) *)
| LCancel (next : timePair)                   (* fcancel() *)
| LRecv (next : timePair)                     (* err := <-errCh, and its inspection *)
| LLoad (next : timePair)                     (* tls.LoadX509KeyPair *)
| LStart (next : timePair) (c : Certificate)  (* fctx, errCh, go, last = next *)
| LSelect                                     (* the select statement *)
| LReturned (err : option error).             (* Run has returned err *)

Record state : Type := mkState {
  pc : location;
  last : timePair;             (* var last *)
  errCh : option nat;          (* var errCh: nil, or the index of a channel *)
  fctx : nat;                  (* var fctx, fcancel: the index of a context *)
  chans : list chan;           (* the channels made so far *)
  ctxs : list bool;            (* per-invocation contexts: was its cancel called? *)
  goroutines : list gstate;    (* the consumer goroutines started so far *)
  outer : option error;        (* Err() of the context Run was given *)
  panicked : bool;             (* a goroutine panicked: the process is gone *)
  nprobes : nat;               (* calls of check so far *)
  nloads : nat                 (* calls of tls.LoadX509KeyPair so far *)
}.

(** The state at the first [check]: the context of line 200 is context 0. *)
Definition init : state :=
  mkState LCheck zeroPair None 0%nat [] [false] [] None false 0 0.

Definition set_pc (l : location) (s : state) : state :=
  mkState l (last s) (errCh s) (fctx s) (chans s) (ctxs s) (goroutines s)
          (outer s) (panicked s) (nprobes s) (nloads s).

Definition set_chans (cs : list chan) (s : state) : state :=
  mkState (pc s) (last s) (errCh s) (fctx s) cs (ctxs s) (goroutines s)
          (outer s) (panicked s) (nprobes s) (nloads s).

Definition set_ctxs (cx : list bool) (s : state) : state :=
  mkState (pc s) (last s) (errCh s) (fctx s) (chans s) cx (goroutines s)
          (outer s) (panicked s) (nprobes s) (nloads s).

Definition set_goroutines (gs : list gstate) (s : state) : state :=
  mkState (pc s) (last s) (errCh s) (fctx s) (chans s) (ctxs s) gs
          (outer s) (panicked s) (nprobes s) (nloads s).

Definition set_outer (e : option error) (s : state) : state :=
  mkState (pc s) (last s) (errCh s) (fctx s) (chans s) (ctxs s) (goroutines s)
          e (panicked s) (nprobes s) (nloads s).

Definition set_panicked (s : state) : state :=
  mkState (pc s) (last s) (errCh s) (fctx s) (chans s) (ctxs s) (goroutines s)
          (outer s) true (nprobes s) (nloads s).

Definition count_probe (s : state) : state :=
  mkState (pc s) (last s) (errCh s) (fctx s) (chans s) (ctxs s) (goroutines s)
          (outer s) (panicked s) (S (nprobes s)) (nloads s).

Definition count_load (s : state) : state :=
  mkState (pc s) (last s) (errCh s) (fctx s) (chans s) (ctxs s) (goroutines s)
          (outer s) (panicked s) (nprobes s) (S (nloads s)).

(** [return err]: the deferred [fcancel]s and [cancel] run, so every
    context derived in Run is cancelled. *)
Definition returns (err : option error) (s : state) : state :=
  set_pc (LReturned err) (set_ctxs (map (fun _ => true) (ctxs s)) s).

(** Lines 234-243: a fresh context and a fresh channel are stored in
    [fctx] and [errCh], the goroutine is started, [last] is updated. *)
Definition start (next : timePair) (c : Certificate) (s : state) : state :=
  mkState LSelect next (Some (length (chans s))) (length (ctxs s))
          (chans s ++ [newChan]) (ctxs s ++ [false])
          (goroutines s ++ [GSpawned c])
          (outer s) (panicked s) (nprobes s) (nloads s).

(** What a receive from [errCh] yields in state [s], if it does not
    block: the channel is the one the variable [errCh] holds now. *)
Definition pending (s : state) : option (option error) :=
  c ← errCh s; ch ← chans s !! c; fst <$> recv ch.

(** The cases of the select statement of lines 246-255. *)
Inductive select_case : Type := SelDone | SelTick | SelErrCh.

(** One atomic action.  The [M] events are the statements of Run, the [G]
    events those of consumer goroutine [g], and [OuterDone] is the caller
    ending the context Run was given.  What the environment answers (the
    stat calls, the load, what [f] returns and when) comes with the event. *)
Inductive event : Type :=
| MCheck (certStat keyStat : stat_result)
| MCancel
| MRecv
| MLoad (r : Certificate + error)
| MStart
| MSelect (c : select_case)
| GCall (g : nat)
| GReturn (g : nat) (res : option error)
| GSend (g : nat)
| GClose (g : nat)
| OuterDone (e : error).

(** ** What the producer goroutines work on *)

(** What a producer goroutine has done so far: the error it stored through
    [errptr], whether it closed the channel it feeds, the values it sent,
    and whether it has returned. *)
Record producer (A : Type) : Type := mkProducer {
  errptr : option error;
  ch_closed : bool;
  sent : list A;
  exited : bool
}.
Arguments mkProducer {A}.
Arguments errptr {A}.
Arguments ch_closed {A}.
Arguments sent {A}.
Arguments exited {A}.

Definition newProducer {A : Type} : producer A := mkProducer None false [] false.

(** [*errptr = err] *)
Definition store {A : Type} (err : option error) (p : producer A) : producer A :=
  mkProducer err (ch_closed p) (sent p) (exited p).

(** [ch <- x] taken by a receiver *)
Definition send {A : Type} (x : A) (p : producer A) : producer A :=
  mkProducer (errptr p) (ch_closed p) (sent p ++ [x]) (exited p).

(** [return] from a goroutine that deferred [close(ch)], or did not. *)
Definition leave {A : Type} (deferClose : bool) (p : producer A) : producer A :=
  mkProducer (errptr p) (deferClose || ch_closed p) (sent p) true.

(** The case a select statement takes: [<-ctx.Done()], with what
    [ctx.Err()] then answers, or the other one (the send is taken by a
    receiver, the timer fires). *)
Inductive selected : Type :=
| Done (err : error)
| Ready.

(** What the environment answers during one round of a polling loop. *)
Record round : Type := mkRound {
  statCert : stat_result;          (* os.Stat(certfile) *)
  statKey : stat_result;           (* os.Stat(keyfile) *)
  readCert : string + error;       (* os.ReadFile(certfile) *)
  readKey : string + error;        (* os.ReadFile(keyfile) *)
  onSend : selected;               (* the select around the send *)
  onWait : selected                (* the select around the timer *)
}.

(** [type X509KeyPair struct { CertPEMBlock, KeyPEMBlock []byte }] *)
Record X509KeyPair : Type := mkKeyPair {
  CertPEMBlock : string;
  KeyPEMBlock : string
}.

(** What the environment answers during one round of the decoding loop of
    [FromCommand]. *)
Record decoding : Type := mkDecoding {
  decoded : X509KeyPair + error;   (* dec.Decode(&pair) *)
  onDeliver : selected             (* the select around the send *)
}.

Section Packages.

(** [filepath.Join] and [tls.X509KeyPair] are taken as they are, and [dir]
    is the directory that is watched. *)
Variable filepath_Join : string -> string -> string.
Variable tls_X509KeyPair : string -> string -> Certificate + error.
Variable dir : string.

Definition certfile : string := filepath_Join dir "fullchain.pem".
Definition keyfile : string := filepath_Join dir "privkey.pem".

(** Lines 213-218: what Run does with the value received while draining. *)
Definition inspect (next : timePair) (err : option error) (s : state) : state :=
  match err with
  | Some e =>
      if negb (Is (Some e) Canceled) || bool_decide (outer s <> None)
      then returns (Some e) s
      else set_pc (LLoad next) s
  | None => set_pc (LLoad next) s
  end.

Definition main_step (s : state) (ev : event) : option state :=
  match ev, pc s with
  | MCheck certStat keyStat, LCheck =>
      let s := count_probe s in
      match check dir certStat keyStat with
      | (_, Some err) => Some (returns (Wrap (Some err) "checking directory") s)
      | (next, None) =>
          if changed (last s) next then
            match errCh s with
            | Some _ => Some (set_pc (LCancel next) s)
            | None => Some (set_pc (LLoad next) s)
            end
          else Some (set_pc LSelect s)
      end
  | MCancel, LCancel next =>
      Some (set_pc (LRecv next) (set_ctxs (<[fctx s := true]> (ctxs s)) s))
  | MRecv, LRecv next =>
      c ← errCh s;
      ch ← chans s !! c;
      '(err, ch') ← recv ch;
      Some (inspect next err (set_chans (<[c := ch']> (chans s)) s))
  | MLoad r, LLoad next =>
      let s := count_load s in
      match r with
      | inr err =>
          Some (returns (Wrap (Some err)
                  ("loading cert and key from " ++ certfile ++ " and " ++ keyfile)) s)
      | inl c => Some (set_pc (LStart next c) s)
      end
  | MStart, LStart next c => Some (start next c s)
  | MSelect SelDone, LSelect =>
      match outer s with
      | Some e => Some (returns (Some e) s)
      | None => None
      end
  | MSelect SelTick, LSelect => Some (set_pc LCheck s)
  | MSelect SelErrCh, LSelect =>
      c ← errCh s;
      ch ← chans s !! c;
      '(err, ch') ← recv ch;
      Some (returns err (set_chans (<[c := ch']> (chans s)) s))
  | _, _ => None
  end.

(** The consumer goroutine
    [go func() { errCh <- f(fctx, cert); close(errCh) }()].
    [fctx] and [errCh] are the variables of Run, which the closure shares
    with Run: the call reads [fctx], and the send and the close each read
    [errCh], when they execute, and find what Run stored there last.  A
    send on a closed channel and a close of a closed channel panic; a send
    on a full channel blocks. *)
Definition goroutine_step (s : state) (ev : event) : option state :=
  match ev with
  | GCall g =>
      match goroutines s !! g with
      | Some (GSpawned c) =>
          Some (set_goroutines (<[g := GRunning (fctx s) c]> (goroutines s)) s)
      | _ => None
      end
  | GReturn g res =>
      match goroutines s !! g with
      | Some (GRunning _ _) =>
          Some (set_goroutines (<[g := GReturned res]> (goroutines s)) s)
      | _ => None
      end
  | GSend g =>
      match goroutines s !! g with
      | Some (GReturned res) =>
          c ← errCh s;
          ch ← chans s !! c;
          if closed ch then Some (set_panicked s)
          else match buf ch with
               | Some _ => None
               | None =>
                   Some (set_goroutines (<[g := GSent]> (goroutines s))
                          (set_chans (<[c := mkChan (Some res) false]> (chans s)) s))
               end
      | _ => None
      end
  | GClose g =>
      match goroutines s !! g with
      | Some GSent =>
          c ← errCh s;
          ch ← chans s !! c;
          if closed ch then Some (set_panicked s)
          else Some (set_goroutines (<[g := GExited]> (goroutines s))
                      (set_chans (<[c := mkChan (buf ch) true]> (chans s)) s))
      | _ => None
      end
  | _ => None
  end.

Definition step (s : state) (ev : event) : option state :=
  if panicked s then None
  else match ev with
       | MCheck _ _ | MCancel | MRecv | MLoad _ | MStart | MSelect _ => main_step s ev
       | GCall _ | GReturn _ _ | GSend _ | GClose _ => goroutine_step s ev
       | OuterDone e =>
           match outer s with
           | None => Some (set_outer (Some e) s)
           | Some _ => None
           end
       end.

(** A schedule is executed from left to right. *)
Fixpoint exec (s : state) (evs : list event) : option state :=
  match evs with
  | [] => Some s
  | ev :: evs => s' ← step s ev; exec s' evs
  end.

Definition live_count (s : state) : nat :=
  length (filter (fun g => live g = true) (goroutines s)).

(** ** The channel producers: [FromDir], [FromCommand], [Times] *)

(** *** Package [certdir] *)

(** [func Times(dir string) (cert, key time.Time, err error)] *)
Definition certdir_Times (certStat keyStat : stat_result)
  : Time * Time * option error :=
  match certStat with
  | inr err => (zeroTime, zeroTime, Wrap (Some err) ("statting " ++ certfile))
  | inl certTime =>
      match keyStat with
      | inr err => (certTime, zeroTime, Wrap (Some err) ("statting " ++ keyfile))
      | inl keyTime => (certTime, keyTime, None)
      end
  end.

(** The goroutine of [certdir.FromDir]: its local variables and what it
    has done. *)
Record fromDir : Type := mkFromDir {
  lastCertTime : Time;
  lastKeyTime : Time;
  out : producer Certificate
}.

Definition fromDir_init : fromDir := mkFromDir zeroTime zeroTime newProducer.

(** The second select of the loop body: neither case returns. *)
Definition certdir_FromDir_wait (r : round) (st : fromDir) : fromDir :=
  match onWait r with
  | Done err => mkFromDir (lastCertTime st) (lastKeyTime st) (store (Some err) (out st))
  | Ready => st
  end.

(** One round of the loop of the goroutine of [certdir.FromDir]. *)
Definition certdir_FromDir_round (st : fromDir) (r : round) : fromDir :=
  if exited (out st) then st else
  let fail err := mkFromDir (lastCertTime st) (lastKeyTime st)
                            (leave true (store err (out st))) in
  match certdir_Times (statCert r) (statKey r) with
  | (_, _, Some err) => fail (Wrap (Some err) ("checking times in " ++ dir))
  | (newCertTime, newKeyTime, None) =>
      if negb (Time_Equal (lastCertTime st) newCertTime)
         || negb (Time_Equal (lastKeyTime st) newKeyTime)
      then
        match readCert r with
        | inr err => fail (Wrap (Some err) ("reading " ++ certfile))
        | inl certpem =>
            match readKey r with
            | inr err => fail (Wrap (Some err) ("reading " ++ keyfile))
            | inl keypem =>
                match tls_X509KeyPair certpem keypem with
                | inr err => fail (Wrap (Some err) "creating certificate object")
                | inl cert =>
                    let o :=
                      match onSend r with
                      | Done err =>
                          store (Wrap (Some err) "sending certificate on channel") (out st)
                      | Ready => send cert (out st)
                      end in
                    certdir_FromDir_wait r (mkFromDir newCertTime newKeyTime o)
                end
            end
        end
      else certdir_FromDir_wait r st
  end.

Definition certdir_FromDir (rounds : list round) : fromDir :=
  fold_left certdir_FromDir_round rounds fromDir_init.

(** One round of the loop of the goroutine of [FromCommand].  The two
    packages differ in [defer close(ch)] only, which package [certs] has
    and package [certdir] has not. *)
Definition FromCommand_round (deferClose : bool)
    (p : producer Certificate) (d : decoding) : producer Certificate :=
  if exited p then p else
  match decoded d with
  | inr err => leave deferClose (store (Wrap (Some err) "decoding JSON") p)
  | inl kp =>
      match tls_X509KeyPair (CertPEMBlock kp) (KeyPEMBlock kp) with
      | inr err => leave deferClose (store (Wrap (Some err) "creating key pair") p)
      | inl cert =>
          match onDeliver d with
          | Done err => leave deferClose (store (Some err) p)
          | Ready => send cert p
          end
      end
  end.

Definition certdir_FromCommand (ds : list decoding) : producer Certificate :=
  fold_left (FromCommand_round false) ds newProducer.

(** The [wait] closure of [certdir.FromCommand]: [waitErr] is what
    [cmd.Wait()] returns, [p] what the goroutine stored through [errptr]. *)
Definition certdir_wait (waitErr p : option error) : option error :=
  match p with
  | Some e => Some e
  | None => waitErr
  end.

(** *** Package [certs] *)

Definition certs_FromCommand (ds : list decoding) : producer Certificate :=
  fold_left (FromCommand_round true) ds newProducer.

(** The [wait] closure of [certs.FromCommand]; [cmd] is how the command
    prints with [%s]. *)
Definition certs_wait (cmd : string) (waitErr p : option error) : option error :=
  let err := Wrap waitErr ("waiting for " ++ cmd) in
  match p with
  | Some e => Join [err; Some e]
  | None => err
  end.

(** Lines 137-153 of [certs.Times]: the later of the two modification
    times, and whether it is reported, which is when it is after
    [latest]. *)
Definition newest (certTime keyTime : Time) : Time :=
  if Time_Before certTime keyTime then keyTime else certTime.

Definition reported (latest certTime keyTime : Time) : bool :=
  Time_Before latest (newest certTime keyTime).

(** One round of the loop of the goroutine of [certs.Times]: both selects
    return when the context is done. *)
Definition certs_Times_round (st : Time * producer Time) (r : round)
  : Time * producer Time :=
  let (latest, p) := st in
  if exited p then st else
  match statCert r with
  | inr err => (latest, leave true (store (Wrap (Some err) ("statting " ++ certfile)) p))
  | inl certTime =>
      match statKey r with
      | inr err => (latest, leave true (store (Wrap (Some err) ("statting " ++ keyfile)) p))
      | inl keyTime =>
          let wait (st : Time * producer Time) :=
            match onWait r with
            | Done err => (fst st, leave true (store (Some err) (snd st)))
            | Ready => st
            end in
          if reported latest certTime keyTime then
            let latest := newest certTime keyTime in
            match onSend r with
            | Done err => (latest, leave true (store (Some err) p))
            | Ready => wait (latest, send latest p)
            end
          else wait (latest, p)
      end
  end.

Definition certs_Times (rounds : list round) : Time * producer Time :=
  fold_left certs_Times_round rounds (zeroTime, newProducer).

(** [certs.FromDir]: its goroutine ranges over the channel of
    [certs.Times].  This is what it does with one time stamp it receives;
    the round says what the reads and the select around the send answer. *)
Definition certs_FromDir_receive (p : producer Certificate) (r : round)
  : producer Certificate :=
  if exited p then p else
  match readCert r with
  | inr err => leave true (store (Wrap (Some err) ("reading " ++ certfile)) p)
  | inl certpem =>
      match readKey r with
      | inr err => leave true (store (Wrap (Some err) ("reading " ++ keyfile)) p)
      | inl keypem =>
          match tls_X509KeyPair certpem keypem with
          | inr err =>
              leave true (store (Wrap (Some err) "creating certificate object") p)
          | inl cert =>
              match onSend r with
              | Done err =>
                  store (Wrap (Some err) "sending certificate on channel") p
              | Ready => send cert p
              end
          end
      end
  end.

(** The goroutine of [certs.FromDir] once the channel of [certs.Times] is
    closed: [received] are the rounds of the time stamps it received, and
    [timesErr] is what it then reads through [timesErrptr]. *)
Definition certs_FromDir (received : list round) (timesErr : option error)
  : producer Certificate :=
  let p := fold_left certs_FromDir_receive received newProducer in
  if exited p then p else leave true (store timesErr p).

(** *** The commands [cmd/certdir] and [cmd/certs] *)

(** What the loop of [run] has done: its variables [lastCertTime] and
    [lastKeyTime] ([cmd/certdir] only), the values it encoded to standard
    output, and what [run] returned, once it has. *)
Record command : Type := mkCommand {
  seenCertTime : Time;
  seenKeyTime : Time;
  emitted : list X509KeyPair;
  result : option (option error)
}.

Definition command_init : command := mkCommand zeroTime zeroTime [] None.

(** [return err] *)
Definition return_with (err : option error) (st : command) : command :=
  mkCommand (seenCertTime st) (seenKeyTime st) (emitted st) (Some err).

(** The select of the loop of [cmd/certdir]: [<-ctx.Done()] returns. *)
Definition cmd_certdir_wait (r : round) (st : command) : command :=
  match onWait r with
  | Done err => return_with (Some err) st
  | Ready => st
  end.

(** One round of the loop of [run] in [cmd/certdir]; [encodeErr] is what
    [enc.Encode] returns. *)
Definition cmd_certdir_round (st : command) (re : round * option error) : command :=
  let (r, encodeErr) := re in
  match result st with
  | Some _ => st
  | None =>
      match certdir_Times (statCert r) (statKey r) with
      | (_, _, Some err) =>
          return_with (Wrap (Some err) ("checking directory " ++ dir)) st
      | (newCertTime, newKeyTime, None) =>
          if negb (Time_Equal newCertTime (seenCertTime st))
             || negb (Time_Equal newKeyTime (seenKeyTime st))
          then
            match readCert r with
            | inr err => return_with (Wrap (Some err) ("reading " ++ certfile)) st
            | inl certpem =>
                match readKey r with
                | inr err => return_with (Wrap (Some err) ("reading " ++ keyfile)) st
                | inl keypem =>
                    match encodeErr with
                    | Some err => return_with (Wrap (Some err) "encoding key pair") st
                    | None =>
                        cmd_certdir_wait r
                          (mkCommand newCertTime newKeyTime
                             (emitted st ++ [mkKeyPair certpem keypem]) None)
                    end
                end
            end
          else cmd_certdir_wait r st
      end
  end.

Definition cmd_certdir (rounds : list (round * option error)) : command :=
  fold_left cmd_certdir_round rounds command_init.

(** What the loop of [run] in [cmd/certs] does with one time stamp it
    receives from [certs.Times]. *)
Definition cmd_certs_receive (st : command) (re : round * option error) : command :=
  let (r, encodeErr) := re in
  match result st with
  | Some _ => st
  | None =>
      match readCert r with
      | inr err => return_with (Wrap (Some err) ("reading " ++ certfile)) st
      | inl certpem =>
          match readKey r with
          | inr err => return_with (Wrap (Some err) ("reading " ++ keyfile)) st
          | inl keypem =>
              match encodeErr with
              | Some err => return_with (Wrap (Some err) "encoding key pair") st
              | None =>
                  mkCommand (seenCertTime st) (seenKeyTime st)
                            (emitted st ++ [mkKeyPair certpem keypem]) None
              end
          end
      end
  end.

(** [run] of [cmd/certs] once the channel of [certs.Times] is closed: it
    returns what [errptr] holds. *)
Definition cmd_certs (received : list (round * option error)) (timesErr : option error)
  : command :=
  let st := fold_left cmd_certs_receive received command_init in
  match result st with
  | Some _ => st
  | None => return_with timesErr st
  end.

(** ** What the statements about Run and the producers speak of *)

(** Some consumer goroutine has sent its result and not yet executed its
    [close(errCh)]. *)
Definition close_pending (s : state) : bool :=
  existsb (fun g => match g with GSent => true | _ => false end) (goroutines s).

(** Run has returned for good in [s]: whatever is scheduled next, it stays
    returned, probes and loads nothing, and starts no invocation. *)
Definition final (s : state) : Prop :=
  forall evs s',
    exec s evs = Some s' ->
    pc s' = pc s /\ nprobes s' = nprobes s /\ nloads s' = nloads s
    /\ length (goroutines s') = length (goroutines s).

(** The states Run reaches on the schedules on which it executes the start
    of an invocation only when no [close(errCh)] is pending. *)
Inductive prompt : state -> Prop :=
| prompt_init : prompt init
| prompt_step (s s' : state) (ev : event) :
    prompt s ->
    step s ev = Some s' ->
    (ev = MStart -> close_pending s = false) ->
    prompt s'.

(** In round [r] the two files are there, can be read, and parse. *)
Definition readable (r : round) : bool :=
  match statCert r, statKey r, readCert r, readKey r with
  | inl _, inl _, inl certpem, inl keypem =>
      match tls_X509KeyPair certpem keypem with
      | inl _ => true
      | inr _ => false
      end
  | _, _, _, _ => false
  end.

(** The states of Run and its goroutines that some schedule reaches. *)
Definition reachable (s : state) : Prop :=
  exists evs, exec init evs = Some s.

(** The certificate [FromCommand] makes of a decoded value, if it parses. *)
Definition parsed (d : decoding) : option Certificate :=
  match decoded d with
  | inl kp =>
      match tls_X509KeyPair (CertPEMBlock kp) (KeyPEMBlock kp) with
      | inl cert => Some cert
      | inr _ => None
      end
  | inr _ => None
  end.

(** The value is decoded, parses, and a receiver takes the certificate. *)
Definition delivered (d : decoding) : bool :=
  match parsed d, onDeliver d with
  | Some _, Ready => true
  | _, _ => false
  end.

(** What the goroutine of [FromCommand] stores when [d] is not delivered. *)
Definition failure (d : decoding) : option error :=
  match decoded d with
  | inr err => Some (Wrapped err "decoding JSON")
  | inl kp =>
      match tls_X509KeyPair (CertPEMBlock kp) (KeyPEMBlock kp) with
      | inr err => Some (Wrapped err "creating key pair")
      | inl _ =>
          match onDeliver d with
          | Done err => Some err
          | Ready => None
          end
      end
  end.

(** The certificate the contents read in round [r] parse to. *)
Definition loaded (r : round) : option Certificate :=
  match readCert r, readKey r with
  | inl certpem, inl keypem =>
      match tls_X509KeyPair certpem keypem with
      | inl cert => Some cert
      | inr _ => None
      end
  | _, _ => None
  end.

(** The certificate the goroutine of [certs.FromDir] sends for the time
    stamp of round [r]: none when the select takes [<-ctx.Done()]. *)
Definition handed (r : round) : option Certificate :=
  match onSend r with
  | Ready => loaded r
  | Done _ => None
  end.

(** What the goroutine of [certs.FromDir] stores when the files of round
    [r] cannot be read or do not parse. *)
Definition load_failure (r : round) : option error :=
  match readCert r with
  | inr err => Some (Wrapped err ("reading " ++ certfile))
  | inl certpem =>
      match readKey r with
      | inr err => Some (Wrapped err ("reading " ++ keyfile))
      | inl keypem =>
          match tls_X509KeyPair certpem keypem with
          | inr err => Some (Wrapped err "creating certificate object")
          | inl _ => None
          end
      end
  end.

(** The value the decoder of [FromCommand] reads where the command wrote
    [kp], and a receiver for its certificate. *)
Definition piped (kp : X509KeyPair) : decoding := mkDecoding (inl kp) Ready.

(** A round without failure and without cancellation. *)
Definition quiet (re : round * option error) : bool :=
  readable (fst re)
  && match snd re, onSend (fst re), onWait (fst re) with
     | None, Ready, Ready => true
     | _, _, _ => false
     end.

(** The schedule can be executed from [s], and no [close(errCh)] is
    pending where it has Run start an invocation. *)
Fixpoint prompt_schedule (s : state) (evs : list event) : bool :=
  match evs with
  | [] => true
  | ev :: evs =>
      match step s ev with
      | None => false
      | Some s' =>
          match ev with
          | MStart => negb (close_pending s)
          | _ => true
          end
          && prompt_schedule s' evs
      end
  end.

(** The loop of [cmd/certdir] and the goroutine of [certdir.FromDir] in
    step: same time stamps seen, and the certificates sent are the ones
    the values emitted parse to. *)
Definition in_step (c : command) (st : fromDir) : Prop :=
  result c = None
  /\ seenCertTime c = lastCertTime st /\ seenKeyTime c = lastKeyTime st
  /\ forallb delivered (map piped (emitted c)) = true
  /\ out st = mkProducer None false (omap parsed (map piped (emitted c))) false.

(** The loop of [cmd/certs] and the goroutine of [certs.FromDir] in step. *)
Definition in_step_certs (c : command) (p : producer Certificate) : Prop :=
  result c = None /\ exited p = false
  /\ forallb delivered (map piped (emitted c)) = true
  /\ sent p = omap parsed (map piped (emitted c)).

End Packages.

(** The instant a [Time] denotes, which is all that [Equal] and [Before]
    look at. *)
Definition instant (t : Time) : Z * Z := (sec t, nsec t).

(** A detector reports every difference when it answers [true] exactly on
    the pairs of which a component denotes another instant than before. *)
Definition reports_every_difference (detect : timePair -> timePair -> bool) : Prop :=
  forall previous current,
    detect previous current = true <->
    (instant (cert current) <> instant (cert previous)
     \/ instant (key current) <> instant (key previous)).

(** The detector of [certs.Times], after a round that saw [previous]. *)
Definition certs_detect (previous current : timePair) : bool :=
  reported (newest (cert previous) (key previous)) (cert current) (key current).

(** [tracks p s]: the pair [p] probed last is either the one Run is about
    to store in [last], or the one [last] holds (up to [equal]). *)
Definition tracks (p : timePair) (s : state) : Prop :=
  match pc s with
  | LCheck | LSelect => equal p (last s) = true
  | LCancel next | LRecv next | LLoad next | LStart next _ => next = p
  | LReturned _ => True
  end.

Definition no_probe (ev : event) : bool :=
  match ev with
  | MCheck _ _ => false
  | _ => true
  end.

(** The statements of Run that receive from [errCh]: the receive of the
    drain (line 213) and the case of the select (line 253). *)
Definition observes (ev : event) : bool :=
  match ev with
  | MRecv | MSelect SelErrCh => true
  | _ => false
  end.

(** How the channel of the youngest goroutine stands, given where that
    goroutine stands. *)
Definition current_ok (g : gstate) (ch : chan) : Prop :=
  match g with
  | GSpawned _ | GRunning _ _ | GReturned _ => ch = newChan
  | GSent => closed ch = false
  | GExited => closed ch = true
  end.

(** Where Run loads and starts, the youngest invocation has returned and
    sent its result. *)
Definition handed_over (l : location) (g : gstate) : Prop :=
  match l with
  | LLoad _ | LStart _ _ => g = GSent \/ g = GExited
  | _ => True
  end.

(** The invariant of the prompt schedules: either nothing was started, or
    channel [i] belongs to goroutine [i], [errCh] holds the youngest one,
    and every older goroutine has exited. *)
Inductive single_flight (s : state) : Prop :=
| sf_idle :
    goroutines s = [] -> chans s = [] -> errCh s = None -> single_flight s
| sf_current (older : list gstate) (g : gstate) (chs : list chan) (ch : chan) :
    goroutines s = older ++ [g] ->
    chans s = chs ++ [ch] ->
    length chs = length older ->
    errCh s = Some (length older) ->
    Forall (eq GExited) older ->
    current_ok g ch ->
    handed_over (pc s) g ->
    single_flight s.

(** A release function reports both when its result matches the exit
    status of the subprocess and the error of the goroutine, each time
    both are there. *)
Definition reports_both (wait : option error -> option error -> option error) : Prop :=
  forall status failure,
    Is (wait (Some status) (Some failure)) status = true
    /\ Is (wait (Some status) (Some failure)) failure = true.

(** What every schedule keeps of the variables of Run: channel [i] and
    context [i + 1] were made at the start of goroutine [i]; [fctx] and
    [errCh] hold the youngest ones; [last] is the zero pair until the first start;
    every start has its load and every load its probe; a running
    invocation holds a context that exists; the contexts of the superseded
    invocations are cancelled, the one of the youngest from the moment Run
    has called [fcancel], and all of them once Run has returned. *)
Record wired (s : state) : Prop := mkWired {
  wired_chans : length (chans s) = length (goroutines s);
  wired_ctxs : length (ctxs s) = S (length (goroutines s));
  wired_fctx : fctx s = length (goroutines s);
  wired_errCh :
    errCh s = match length (goroutines s) with O => None | S n => Some n end;
  wired_last : length (goroutines s) = 0%nat -> last s = zeroPair;
  wired_running :
    forall g k c,
      goroutines s !! g = Some (GRunning k c) -> (k < length (ctxs s))%nat;
  wired_loads :
    match pc s with
    | LStart _ _ => (S (length (goroutines s)) <= nloads s)%nat
    | _ => (length (goroutines s) <= nloads s)%nat
    end;
  wired_probes :
    match pc s with
    | LCancel _ | LRecv _ | LLoad _ => (S (nloads s) <= nprobes s)%nat
    | _ => (nloads s <= nprobes s)%nat
    end;
  wired_superseded :
    forall i, (0 < i < fctx s)%nat -> ctxs s !! i = Some true;
  wired_cancelled :
    match pc s with
    | LRecv _ | LLoad _ | LStart _ _ =>
        errCh s <> None -> ctxs s !! fctx s = Some true
    | LReturned _ => Forall (eq true) (ctxs s)
    | _ => True
    end
}.

(** Each time stamp is before the next one. *)
Definition increasing (ts : list Time) : Prop :=
  forall i j t u,
    (i < j)%nat -> ts !! i = Some t -> ts !! j = Some u -> Time_Before t u = true.

(** What the goroutine keeps about the time stamps it has sent. *)
Definition ordered (st : Time * producer Time) : Prop :=
  increasing (sent (snd st))
  /\ forall i t, sent (snd st) !! i = Some t -> Time_Before (fst st) t = false.

(** The channel is closed exactly when the goroutine has returned, and it
    has returned exactly when it has stored an error. *)
Definition settled {A : Type} (p : producer A) : Prop :=
  ch_closed p = exited p /\ (exited p = true <-> errptr p <> None).

(** One of the two modification times of round [r]. *)
Definition observed (t : Time) (r : round) : Prop :=
  statCert r = inl t \/ statKey r = inl t.

(** The channel is closed exactly when the goroutine has returned, and
    then an error is stored. *)
Definition closed_on_error (p : producer Certificate) : Prop :=
  ch_closed p = exited p
  /\ (exited p = true -> exists err msg, errptr p = Some (Wrapped err msg)).

(** ** A watched directory and schedules on it *)

(** [filepath.Join] on a clean directory name. *)
Definition join (d name : string) : string := d ++ "/" ++ name.

Definition watched : string := "/etc/certs".

Definition at_second (n : Z) : Time := mkTime n 0 "Local".

(** The same instant, read in another location. *)
Definition utc_second (n : Z) : Time := mkTime n 0 "".

Definition issued (n : Z) : stat_result := inl (at_second n).

Definition cert1 : Certificate := mkCert "chain 1" "key 1".
Definition cert2 : Certificate := mkCert "chain 2" "key 2".
Definition cert3 : Certificate := mkCert "chain 3" "key 3".

(** The state a schedule leads to from [init]. *)
Definition after (evs : list event) : state :=
  default init (exec join watched init evs).

(** The files are found, the first certificate is loaded, and the first
    invocation is started and running. *)
Definition first_invocation : list event :=
  [MCheck (issued 100) (issued 100); MLoad (inl cert1); MStart; GCall 0].

(** A tick finds both files renewed at second [n], and Run cancels the
    running invocation. *)
Definition renewal (n : Z) : list event :=
  [MSelect SelTick; MCheck (issued n) (issued n); MCancel].

(** Invocation [g] returns [res] and sends it. *)
Definition completes (g : nat) (res : option error) : list event :=
  [GReturn g res; GSend g].

(** Run drains, loads [c] and starts the next invocation, which runs. *)
Definition replaced_by (c : Certificate) (g : nat) : list event :=
  [MRecv; MLoad (inl c); MStart; GCall g].

(** Two renewals.  Goroutine 0 acknowledges its cancellation and sends,
    but its [close(errCh)] executes only after Run has stored the channel
    of invocation 1 in [errCh] and has cancelled invocation 1: it closes
    that channel.  The receive of Run yields nil from the closed channel
    while invocation 1 has not returned, and invocation 2 is started. *)
Definition late_close : list event :=
  first_invocation
  ++ renewal 200 ++ completes 0 (Some Canceled) ++ replaced_by cert2 1
  ++ renewal 300 ++ [GClose 0] ++ replaced_by cert3 2.

(** The invocation answers its cancellation by returning nil. *)
Definition drained_nil : list event :=
  first_invocation ++ renewal 200 ++ completes 0 None.

(** The cancelled invocation answers with [context.Canceled]. *)
Definition acknowledged : list event :=
  first_invocation ++ renewal 200 ++ completes 0 (Some Canceled).

(** The caller ends the context while Run waits for invocation 0. *)
Definition shutdown_in_drain : list event :=
  first_invocation ++ renewal 200 ++ [OuterDone Canceled].

(** The caller ends the context while Run drains, and the invocation
    answers with [context.Canceled]. *)
Definition shutdown_acknowledged : list event :=
  shutdown_in_drain ++ completes 0 (Some Canceled).

(** The invocation returns on its own while Run is in its select. *)
Definition listener_failed : error := Other "accept: use of closed network connection".

(** The directory is empty when Run starts. *)
Definition missing : error := Other "no such file or directory".

(** C2 as it is written: the result is discarded if and only if it is a
    cancellation error and the outer context has not ended. *)
Definition discards_only_cancellations : Prop :=
  forall s next v s',
    pc s = LRecv next -> panicked s = false -> pending s = Some v ->
    step join watched s MRecv = Some s' ->
    (pc s' = LLoad next <-> (Is v Canceled = true /\ outer s = None)).

(** C6 as it is written: once the outer context has ended while Run is
    about to receive the result of the invocation it cancelled, no
    invocation is started any more, and what Run returns is the error of
    the outer context. *)
Definition shutdown_ends_draining : Prop :=
  forall evs s next cause,
    exec join watched init evs = Some s ->
    pc s = LRecv next -> outer s = Some cause ->
    forall evs' s',
      exec join watched s evs' = Some s' ->
      length (goroutines s') = length (goroutines s)
      /\ (forall r, pc s' = LReturned r -> r = Some cause).

(** Invocation 0 returns nil on its own and sends it; then a tick finds
    both files renewed, and Run cancels the invocation that has returned. *)
Definition completed_before_the_tick : list event :=
  first_invocation ++ completes 0 None ++ renewal 200.

(** C3 as it is written: when an invocation that is inside [f] with a
    context that is not cancelled returns [v] and sends it, the next
    receive of Run from [errCh], wherever it is, makes Run return [v]. *)
Definition completion_is_terminal : Prop :=
  forall evs s g k c v evs' s1 ev s2,
    exec join watched init evs = Some s ->
    goroutines s !! g = Some (GRunning k c) ->
    ctxs s !! k = Some false ->
    exec join watched s ([GReturn g v; GSend g] ++ evs') = Some s1 ->
    forallb (fun ev' => negb (observes ev')) evs' = true ->
    observes ev = true ->
    step join watched s1 ev = Some s2 ->
    pc s2 = LReturned v.

(** A parser that accepts every pair. *)
Definition parse_any (certpem keypem : string) : Certificate + error :=
  inl (mkCert certpem keypem).

(** A round in which the files are unchanged since second 100 and the
    context is cancelled. *)
Definition cancelled_round : round :=
  mkRound (issued 100) (issued 100) (inl "chain 1") (inl "key 1")
          (Done Canceled) (Done Canceled).

(** A round of [certs.Times] that finds the certificate of second [c] and
    the key of second [k], with a receiver and no cancellation. *)
Definition polled (c k : Z) : round :=
  mkRound (issued c) (issued k) (inl "chain") (inl "key") Ready Ready.

(** The subprocess exits with status 1; the decoder meets the end of its
    output. *)
Definition exit_status_1 : error := Other "exit status 1".
Definition EOF : error := Other "EOF".

(** The caller ends the context while invocation 0 runs, and the select
    of Run sees it. *)
Definition returned_on_shutdown : list event :=
  first_invocation ++ [OuterDone Canceled; MSelect SelDone].

(** Invocation 0 was replaced by invocation 1. *)
Definition replaced : list event :=
  acknowledged ++ replaced_by cert2 1.

(** Run drains while invocation 0 is still inside [f]. *)
Definition draining : list event := first_invocation ++ renewal 200.

(** Invocation 0 has returned and not yet sent. *)
Definition returned_not_sent : list event :=
  draining ++ [GReturn 0 (Some Canceled)].

(** A round of [certs.FromDir] in which the context ends before a receiver
    takes the certificate. *)
Definition abandoned : round :=
  mkRound (issued 100) (issued 100) (inl "chain") (inl "key") (Done Canceled) Ready.

(** A round in which the certificate file has gone. *)
Definition unreadable : round :=
  mkRound (issued 100) (issued 100) (inr missing) (inl "key") Ready Ready.

(** * Properties *)

(** ** Time stamps and change detection *)

Lemma Time_Equal_instant (t u : Time) :
  Time_Equal t u = true <-> instant t = instant u.
Proof.
  unfold Time_Equal, instant. rewrite andb_true_iff, !Z.eqb_eq.
  split; [intros [-> ->]; reflexivity | intros [= -> ->]; auto].
Qed.

Lemma Time_Equal_differs (t u : Time) :
  Time_Equal t u = false <-> instant t <> instant u.
Proof.
  rewrite <- Time_Equal_instant. destruct (Time_Equal t u); split; congruence.
Qed.

Lemma Time_Equal_refl (t : Time) : Time_Equal t t = true.
Proof. apply Time_Equal_instant. reflexivity. Qed.

Lemma Time_Equal_sym (t u : Time) : Time_Equal t u = Time_Equal u t.
Proof. unfold Time_Equal. rewrite (Z.eqb_sym (sec t)), (Z.eqb_sym (nsec t)). reflexivity. Qed.

Lemma Time_Equal_trans (t u v : Time) :
  Time_Equal t u = true -> Time_Equal u v = true -> Time_Equal t v = true.
Proof. rewrite !Time_Equal_instant. congruence. Qed.

Lemma Time_Before_differs (t u : Time) :
  Time_Before t u = true -> Time_Equal t u = false.
Proof.
  unfold Time_Before, Time_Equal. intros H.
  apply orb_true_iff in H as [H | H].
  - apply Z.ltb_lt in H. apply andb_false_iff. left. apply Z.eqb_neq. lia.
  - apply andb_true_iff in H as [_ H]. apply Z.ltb_lt in H.
    apply andb_false_iff. right. apply Z.eqb_neq. lia.
Qed.

Lemma equal_refl (p : timePair) : equal p p = true.
Proof. unfold equal. rewrite !Time_Equal_refl. reflexivity. Qed.

Lemma equal_sym (p q : timePair) : equal p q = equal q p.
Proof. unfold equal. rewrite (Time_Equal_sym (cert p)), (Time_Equal_sym (key p)). reflexivity. Qed.

Lemma equal_trans (p q r : timePair) :
  equal p q = true -> equal q r = true -> equal p r = true.
Proof.
  unfold equal. rewrite !andb_true_iff. intros [H1 H2] [H3 H4].
  eauto using Time_Equal_trans.
Qed.

Lemma changed_reports_every_difference : reports_every_difference changed.
Proof.
  intros p c. unfold changed, equal.
  rewrite negb_true_iff, andb_false_iff, !Time_Equal_differs. reflexivity.
Qed.

Lemma Time_Before_newest (latest certTime keyTime : Time) :
  Time_Before latest (newest certTime keyTime) = true <->
  (Time_Before latest certTime = true \/ Time_Before latest keyTime = true).
Proof.
  unfold newest. destruct (Time_Before certTime keyTime) eqn:E;
    unfold Time_Before in *;
    rewrite ?orb_true_iff, ?andb_true_iff, ?orb_false_iff, ?andb_false_iff,
            ?Z.ltb_lt, ?Z.eqb_eq, ?Z.ltb_ge, ?Z.eqb_neq in *; lia.
Qed.

(** C5, as it is written, does not hold of [certs.Times]: once both files
    were seen at second 100, a key file that is moved back to second 50 is
    a difference that is not reported, and the goroutine sends nothing in
    that round. *)
Lemma certs_Times_misses_differences :
  ~ reports_every_difference certs_detect
  /\ sent (snd (certs_Times join watched [polled 100 100; polled 100 50]))
     = [at_second 100].
Proof.
  split; [|reflexivity]. intros H.
  destruct (H (mkPair (at_second 100) (at_second 100))
              (mkPair (at_second 100) (at_second 50))) as [_ H'].
  assert (certs_detect (mkPair (at_second 100) (at_second 100))
                       (mkPair (at_second 100) (at_second 50)) = true) as E.
  { apply H'. right. vm_compute. discriminate. }
  vm_compute in E. discriminate.
Qed.

(** C5 (amended).  In Run, [changed] is component-wise inequality of the
    two instants: it is [true] exactly when the certificate's or the key's
    time stamp denotes another instant than before, whatever their order,
    so a time stamp that moved back is a change.  In [certs.Times] the time
    stamps are compared for order: a round reports exactly when the
    certificate's or the key's time stamp is after the latest one reported
    so far. *)
Theorem change_detection :
  reports_every_difference changed
  /\ (forall previous current,
        Time_Before (cert current) (cert previous) = true
        \/ Time_Before (key current) (key previous) = true ->
        changed previous current = true)
  /\ (forall latest certTime keyTime,
        reported latest certTime keyTime = true <->
        (Time_Before latest certTime = true \/ Time_Before latest keyTime = true)).
Proof.
  split; [exact changed_reports_every_difference |]. split.
  - intros p c H. apply changed_reports_every_difference.
    destruct H as [H | H]; apply Time_Before_differs, Time_Equal_differs in H; auto.
  - intros. apply Time_Before_newest.
Qed.

(** ** The coordinator *)

Section RunProperties.

Variable filepath_Join : string -> string -> string.
Variable dir : string.

Local Abbreviation step' := (step filepath_Join dir).
Local Abbreviation exec' := (exec filepath_Join dir).
Local Abbreviation final' := (final filepath_Join dir).
Local Abbreviation prompt' := (prompt filepath_Join dir).

Ltac break_state s :=
  destruct s as [pc0 last0 errCh0 fctx0 chans0 ctxs0 gs0 outer0 panicked0 np0 nl0];
  simpl in *; subst.

Lemma pending_recv (s : state) (v : option error) :
  pending s = Some v ->
  exists c ch ch',
    errCh s = Some c /\ chans s !! c = Some ch /\ recv ch = Some (v, ch').
Proof.
  unfold pending. intros H.
  destruct (errCh s) as [c|] eqn:Hc; [|discriminate]. simpl in H.
  destruct (chans s !! c) as [ch|] eqn:Hch; [|discriminate]. simpl in H.
  destruct (recv ch) as [[v' ch']|] eqn:Hr; [|discriminate]. simpl in H.
  injection H as ->. eauto 6.
Qed.

(** What the receive of the drain does, whatever the state. *)
Lemma drain_step (s : state) (next : timePair) (v : option error) :
  pc s = LRecv next -> panicked s = false -> pending s = Some v ->
  exists s',
    step' s MRecv = Some s'
    /\ goroutines s' = goroutines s
    /\ outer s' = outer s
    /\ panicked s' = false
    /\ pc s' = match v with
               | None => LLoad next
               | Some e =>
                   if negb (Is (Some e) Canceled) || bool_decide (outer s <> None)
                   then LReturned (Some e) else LLoad next
               end.
Proof.
  intros Hpc Hp Hv. apply pending_recv in Hv as (c & ch & ch' & Hc & Hch & Hr).
  break_state s. unfold step, main_step. simpl. rewrite Hch. simpl.
  rewrite Hr. simpl. unfold inspect. simpl.
  destruct v as [e|]; [destruct (negb _ || _)|]; eexists; repeat split; reflexivity.
Qed.

(** What the receive of the select does, whatever the state. *)
Lemma select_recv_step (s : state) (v : option error) :
  pc s = LSelect -> panicked s = false -> pending s = Some v ->
  exists s',
    step' s (MSelect SelErrCh) = Some s'
    /\ pc s' = LReturned v
    /\ goroutines s' = goroutines s.
Proof.
  intros Hpc Hp Hv. apply pending_recv in Hv as (c & ch & ch' & Hc & Hch & Hr).
  break_state s. unfold step, main_step. simpl. rewrite Hch. simpl.
  rewrite Hr. simpl. eexists; repeat split; reflexivity.
Qed.

(** After a successful load the new invocation is started. *)
Lemma load_and_start (s : state) (next : timePair) (c : Certificate) :
  pc s = LLoad next -> panicked s = false ->
  exists s',
    exec' s [MLoad (inl c); MStart] = Some s'
    /\ pc s' = LSelect
    /\ last s' = next
    /\ goroutines s' = goroutines s ++ [GSpawned c].
Proof.
  intros Hpc Hp. break_state s. unfold exec, step. simpl.
  eexists; repeat split; reflexivity.
Qed.

(** Steps of the consumer goroutines and of the caller leave the
    variables of Run alone. *)
Lemma other_step (s s' : state) (ev : event) :
  step' s ev = Some s' ->
  match ev with
  | GCall _ | GReturn _ _ | GSend _ | GClose _ | OuterDone _ => True
  | _ => False
  end ->
  pc s' = pc s /\ last s' = last s /\ nprobes s' = nprobes s
  /\ nloads s' = nloads s /\ length (goroutines s') = length (goroutines s).
Proof.
  intros Hs Hev. unfold step in Hs.
  destruct (panicked s); [discriminate|].
  destruct ev; try contradiction; simpl in Hs.
  - destruct (goroutines s !! g) as [[]|]; try discriminate.
    injection Hs as <-. simpl. rewrite length_insert. auto.
  - destruct (goroutines s !! g) as [[]|]; try discriminate.
    injection Hs as <-. simpl. rewrite length_insert. auto.
  - destruct (goroutines s !! g) as [[]|]; try discriminate.
    destruct (errCh s) as [c|]; [|discriminate]. simpl in Hs.
    destruct (chans s !! c) as [ch|]; [|discriminate]. simpl in Hs.
    destruct (closed ch); [injection Hs as <-; simpl; auto|].
    destruct (buf ch); [discriminate|].
    injection Hs as <-. simpl. rewrite length_insert. auto.
  - destruct (goroutines s !! g) as [[]|]; try discriminate.
    destruct (errCh s) as [c|]; [|discriminate]. simpl in Hs.
    destruct (chans s !! c) as [ch|]; [|discriminate]. simpl in Hs.
    destruct (closed ch); injection Hs as <-; simpl; rewrite ?length_insert; auto.
  - destruct (outer s); [discriminate|]. injection Hs as <-. simpl. auto.
Qed.

(** Once Run has returned, none of its statements executes. *)
Lemma returned_step (s s' : state) (r : option error) (ev : event) :
  pc s = LReturned r -> step' s ev = Some s' ->
  pc s' = LReturned r /\ nprobes s' = nprobes s /\ nloads s' = nloads s
  /\ length (goroutines s') = length (goroutines s).
Proof.
  intros Hpc Hs.
  assert (match ev with
          | GCall _ | GReturn _ _ | GSend _ | GClose _ | OuterDone _ => True
          | _ => False
          end) as Hev.
  { unfold step, main_step in Hs. rewrite Hpc in Hs.
    destruct (panicked s); [discriminate|].
    destruct ev as [| | | | |[]| | | | |]; try discriminate; exact I. }
  destruct (other_step _ _ _ Hs Hev) as (H1 & _ & H2 & H3 & H4).
  rewrite H1. auto.
Qed.

Lemma returned_is_final (evs : list event) (s s' : state) (r : option error) :
  pc s = LReturned r -> exec' s evs = Some s' ->
  pc s' = LReturned r /\ nprobes s' = nprobes s /\ nloads s' = nloads s
  /\ length (goroutines s') = length (goroutines s).
Proof.
  revert s. induction evs as [|ev evs IH]; intros s Hpc He; simpl in He.
  - injection He as <-. auto.
  - destruct (step' s ev) as [s1|] eqn:Hs; [|discriminate]. simpl in He.
    destruct (returned_step _ _ _ _ Hpc Hs) as (H1 & H2 & H3 & H4).
    destruct (IH _ H1 He) as (H5 & H6 & H7 & H8).
    repeat split; congruence.
Qed.

Lemma tracks_probe (s s' : state) (certTime keyTime : Time) :
  pc s = LCheck ->
  step' s (MCheck (inl certTime) (inl keyTime)) = Some s' ->
  tracks (mkPair certTime keyTime) s'.
Proof.
  intros Hpc Hs. break_state s. unfold step, main_step in Hs.
  destruct panicked0; [discriminate|]. simpl in Hs. unfold changed in Hs.
  destruct (equal _ last0) eqn:E; simpl in Hs.
  - injection Hs as <-. exact E.
  - destruct errCh0; injection Hs as <-; reflexivity.
Qed.

Lemma tracks_step (p : timePair) (s s' : state) (ev : event) :
  tracks p s -> no_probe ev = true -> step' s ev = Some s' -> tracks p s'.
Proof.
  intros Ht Hev Hs.
  destruct ev; try discriminate;
    try (destruct (other_step _ _ _ Hs I) as (H1 & H2 & _);
         unfold tracks in *; rewrite H1, H2; exact Ht).
  - (* MCancel *)
    break_state s. unfold step, main_step in Hs.
    destruct panicked0; [discriminate|]. simpl in Hs.
    destruct pc0; try discriminate. injection Hs as <-. exact Ht.
  - (* MRecv *)
    break_state s. unfold step, main_step in Hs.
    destruct panicked0; [discriminate|]. simpl in Hs.
    destruct pc0; try discriminate.
    destruct errCh0 as [c|]; [|discriminate]. simpl in Hs.
    destruct (chans0 !! c) as [ch|]; [|discriminate]. simpl in Hs.
    destruct (recv ch) as [[v ch']|]; [|discriminate]. simpl in Hs.
    injection Hs as <-. unfold inspect, tracks in *. simpl in *.
    destruct v as [e|]; [destruct (negb _ || _)|]; simpl; auto.
  - (* MLoad *)
    break_state s. unfold step, main_step in Hs.
    destruct panicked0; [discriminate|]. simpl in Hs.
    destruct pc0; try discriminate.
    unfold tracks in *. destruct r; injection Hs as <-; simpl in *; auto.
  - (* MStart *)
    break_state s. unfold step, main_step in Hs.
    destruct panicked0; [discriminate|]. simpl in Hs.
    destruct pc0; try discriminate. injection Hs as <-.
    unfold tracks in *. simpl in *. subst. apply equal_refl.
  - (* MSelect *)
    break_state s. unfold step, main_step in Hs.
    destruct panicked0; [discriminate|]. simpl in Hs.
    destruct pc0; try (destruct c; discriminate).
    destruct c; simpl in Hs.
    + destruct outer0; [|discriminate]. injection Hs as <-. exact I.
    + injection Hs as <-. exact Ht.
    + destruct errCh0 as [c|]; [|discriminate]. simpl in Hs.
      destruct (chans0 !! c) as [ch|]; [|discriminate]. simpl in Hs.
      destruct (recv ch) as [[v ch']|]; [|discriminate]. simpl in Hs.
      injection Hs as <-. exact I.
Qed.

Lemma tracks_exec (p : timePair) (evs : list event) (s s' : state) :
  tracks p s -> forallb no_probe evs = true -> exec' s evs = Some s' -> tracks p s'.
Proof.
  revert s. induction evs as [|ev evs IH]; intros s Ht Hev He; simpl in *.
  - injection He as <-. exact Ht.
  - apply andb_true_iff in Hev as [Hev Hevs].
    destruct (step' s ev) as [s1|] eqn:Hs; [|discriminate]. simpl in He.
    eauto using tracks_step.
Qed.

(** A probe that finds the pair [last] holds goes straight to the select. *)
Lemma probe_unchanged (s : state) (certTime keyTime : Time) :
  pc s = LCheck -> panicked s = false ->
  equal (mkPair certTime keyTime) (last s) = true ->
  step' s (MCheck (inl certTime) (inl keyTime))
  = Some (set_pc LSelect (count_probe s)).
Proof.
  intros Hpc Hp He. break_state s. unfold step, main_step. simpl.
  unfold changed. simpl. rewrite He. reflexivity.
Qed.

Lemma returned_final (s : state) (r : option error) :
  pc s = LReturned r -> final' s.
Proof.
  intros Hpc evs s' He. rewrite Hpc. eauto using returned_is_final.
Qed.

(** C8.  Take a tick whose probe found the pair [(certTime, keyTime)], and
    the next probe of Run, no other probe in between.  If that next probe
    finds a pair that is equal, Run goes straight to its select: no
    certificate is loaded, no invocation is started, and [last] is what it
    was. *)
Theorem unchanged_tick_is_a_no_op
    (s0 s1 s2 : state) (evs : list event) (certTime keyTime certTime' keyTime' : Time) :
  pc s0 = LCheck ->
  step' s0 (MCheck (inl certTime) (inl keyTime)) = Some s1 ->
  forallb no_probe evs = true ->
  exec' s1 evs = Some s2 ->
  pc s2 = LCheck ->
  panicked s2 = false ->
  equal (mkPair certTime' keyTime') (mkPair certTime keyTime) = true ->
  exists s3,
    step' s2 (MCheck (inl certTime') (inl keyTime')) = Some s3
    /\ pc s3 = LSelect
    /\ last s3 = last s2
    /\ nloads s3 = nloads s2
    /\ goroutines s3 = goroutines s2.
Proof.
  intros Hpc0 Hs1 Hevs He Hpc2 Hp2 Heq.
  assert (tracks (mkPair certTime keyTime) s2) as Ht
    by eauto using tracks_exec, tracks_probe.
  unfold tracks in Ht. rewrite Hpc2 in Ht.
  eexists. split; [apply probe_unchanged; eauto using equal_trans|].
  repeat split; reflexivity.
Qed.

(** C2 (amended).  When Run, draining, receives the completion result [v]
    of the invocation it has just cancelled, it discards [v] and goes on to
    load the certificate and to start a fresh invocation if and only if [v]
    is nil, or [v] matches [context.Canceled] and the outer context has not
    ended; otherwise Run returns [v] unchanged. *)
Theorem drain_verdict (s : state) (next : timePair) (v : option error) :
  pc s = LRecv next -> panicked s = false -> pending s = Some v ->
  exists s',
    step' s MRecv = Some s'
    /\ (pc s' = LLoad next <->
        (v = None \/ (Is v Canceled = true /\ outer s = None)))
    /\ (pc s' <> LLoad next -> pc s' = LReturned v)
    /\ (pc s' = LLoad next ->
        forall c, exists s'',
          exec' s' [MLoad (inl c); MStart] = Some s''
          /\ goroutines s'' = goroutines s ++ [GSpawned c]).
Proof.
  intros Hpc Hp Hv.
  destruct (drain_step s next v Hpc Hp Hv) as (s' & Hs & Hg & Ho & Hp' & Hpc').
  exists s'. split; [exact Hs|].
  assert (pc s' = LLoad next ->
          forall c, exists s'',
            exec' s' [MLoad (inl c); MStart] = Some s''
            /\ goroutines s'' = goroutines s ++ [GSpawned c]) as Hgo.
  { intros Hl c. destruct (load_and_start s' next c Hl Hp') as (s'' & ? & _ & _ & ?).
    exists s''. split; congruence. }
  destruct v as [e|]; simpl in *.
  - destruct (Is_chain e Canceled) eqn:Ec; simpl in Hpc'.
    + destruct (outer s) as [o|] eqn:Eo.
      * rewrite bool_decide_eq_true_2 in Hpc' by discriminate.
        rewrite Hpc'. repeat split; try discriminate; auto.
        intros [|[_ ?]]; discriminate.
      * rewrite bool_decide_eq_false_2 in Hpc' by auto.
        rewrite Hpc'. repeat split; auto. congruence.
    + rewrite Hpc'. repeat split; try discriminate; auto.
      intros [|[? _]]; discriminate.
  - rewrite Hpc'. repeat split; auto. congruence.
Qed.

(** C10.  When the result Run receives while draining is nil and the outer
    context has not ended, Run does not return: it goes on to load the
    certificate and starts a fresh invocation.  A nil received by the
    select, from an invocation that was not cancelled, makes Run return
    nil. *)
Theorem drained_nil_is_swallowed (s : state) (next : timePair) :
  pc s = LRecv next -> panicked s = false -> outer s = None ->
  pending s = Some None ->
  (exists s',
     step' s MRecv = Some s'
     /\ pc s' = LLoad next
     /\ forall c, exists s'',
          exec' s' [MLoad (inl c); MStart] = Some s''
          /\ pc s'' = LSelect
          /\ goroutines s'' = goroutines s ++ [GSpawned c])
  /\ (forall s0,
        pc s0 = LSelect -> panicked s0 = false -> pending s0 = Some None ->
        exists s1, step' s0 (MSelect SelErrCh) = Some s1 /\ pc s1 = LReturned None).
Proof.
  intros Hpc Hp Ho Hv. split.
  - destruct (drain_step s next None Hpc Hp Hv) as (s' & Hs & Hg & _ & Hp' & Hpc').
    exists s'. repeat split; auto. intros c.
    destruct (load_and_start s' next c Hpc' Hp') as (s'' & ? & ? & _ & ?).
    exists s''. repeat split; congruence.
  - intros s0 Hpc0 Hp0 Hv0.
    destruct (select_recv_step s0 None Hpc0 Hp0 Hv0) as (s1 & ? & ? & _). eauto.
Qed.

(** C3 (amended).  An invocation that returns [v] on its own, its context
    not cancelled, has Run return [v] as it is, an error or nil, and be
    done, when the select of Run receives [v].  When a tick finds the files
    changed before that, Run cancels the invocation that has returned and
    receives [v] in its drain: there a nil [v], and a [v] that matches
    [context.Canceled] while the outer context has not ended, are discarded,
    and Run loads the certificate and starts a fresh invocation; any other
    [v] is returned as it is. *)
Theorem natural_completion_verdict (s : state) (v : option error) :
  panicked s = false ->
  (pc s = LSelect -> pending s = Some v ->
   exists s',
     step' s (MSelect SelErrCh) = Some s' /\ pc s' = LReturned v /\ final' s')
  /\ (forall next,
        pc s = LRecv next -> pending s = Some v ->
        exists s',
          step' s MRecv = Some s'
          /\ ((v = None \/ (Is v Canceled = true /\ outer s = None)) ->
              pc s' = LLoad next
              /\ forall c, exists s'',
                   exec' s' [MLoad (inl c); MStart] = Some s''
                   /\ pc s'' = LSelect
                   /\ goroutines s'' = goroutines s ++ [GSpawned c])
          /\ (~ (v = None \/ (Is v Canceled = true /\ outer s = None)) ->
              pc s' = LReturned v /\ final' s'))
  /\ (forall g k c ch,
        pc s = LSelect ->
        goroutines s !! g = Some (GRunning k c) -> ctxs s !! k = Some false ->
        errCh s = Some ch -> chans s !! ch = Some newChan ->
        (exists s',
           exec' s [GReturn g v; GSend g; MSelect SelErrCh] = Some s'
           /\ pc s' = LReturned v /\ final' s')
        /\ (forall certTime keyTime,
              changed (last s) (mkPair certTime keyTime) = true ->
              exists s',
                exec' s [GReturn g v; GSend g; MSelect SelTick;
                         MCheck (inl certTime) (inl keyTime); MCancel; MRecv]
                = Some s'
                /\ ((v = None \/ (Is v Canceled = true /\ outer s = None)) ->
                    pc s' = LLoad (mkPair certTime keyTime))
                /\ (~ (v = None \/ (Is v Canceled = true /\ outer s = None)) ->
                    pc s' = LReturned v /\ final' s'))).
Proof.
  intros Hp. split; [|split].
  - intros Hpc Hv. destruct (select_recv_step s v Hpc Hp Hv) as (s' & ? & ? & _).
    eauto using returned_final.
  - intros next Hpc Hv.
    destruct (drain_step s next v Hpc Hp Hv) as (s' & Hs & Hg & _ & Hp' & Hpc').
    exists s'. split; [exact Hs|]. split.
    + intros Hd.
      assert (pc s' = LLoad next) as Hl.
      { rewrite Hpc'. destruct Hd as [->|[Hc Ho]]; [reflexivity|].
        destruct v as [e|]; [|reflexivity].
        rewrite Hc, Ho, bool_decide_eq_false_2 by auto. reflexivity. }
      split; [exact Hl|]. intros c.
      destruct (load_and_start s' next c Hl Hp') as (s'' & ? & ? & _ & ?).
      exists s''. repeat split; congruence.
    + intros Hn.
      assert (pc s' = LReturned v) as Hr.
      { rewrite Hpc'. destruct v as [e|]; [|tauto].
        destruct (Is (Some e) Canceled) eqn:Hc; [|reflexivity].
        destruct (outer s) as [o|] eqn:Ho; [|tauto].
        rewrite bool_decide_eq_true_2 by discriminate. reflexivity. }
      eauto using returned_final.
  - intros g k c ch Hpc Hg Hk Hc Hch. break_state s.
    assert (g < length gs0)%nat as Hlt by eauto using lookup_lt_Some.
    assert (ch < length chans0)%nat as Hlt' by eauto using lookup_lt_Some.
    split.
    + unfold exec, step, goroutine_step, main_step. simpl.
      rewrite Hg. simpl. rewrite list_lookup_insert_eq by assumption. simpl.
      rewrite Hch. simpl. rewrite list_lookup_insert_eq by assumption. simpl.
      eexists. split; [reflexivity|]. split; [reflexivity|].
      eapply returned_final. reflexivity.
    + intros certTime keyTime Hch'.
      unfold exec, step, goroutine_step, main_step. simpl.
      rewrite Hg. simpl. rewrite list_lookup_insert_eq by assumption. simpl.
      rewrite Hch. simpl. unfold check. rewrite Hch'. simpl.
      rewrite list_lookup_insert_eq by assumption. simpl.
      unfold inspect. simpl.
      destruct v as [e|].
      * destruct (Is_chain e Canceled) eqn:Ec; simpl.
        -- destruct outer0 as [o|].
           ++ rewrite bool_decide_eq_true_2 by discriminate.
              eexists. split; [reflexivity|]. split.
              ** intros [|[_ ?]]; discriminate.
              ** intros _. split; [reflexivity|]. eapply returned_final. reflexivity.
           ++ rewrite bool_decide_eq_false_2 by auto.
              eexists. split; [reflexivity|]. split; [reflexivity|].
              intros Hn. exfalso. apply Hn. right. split; [exact Ec | reflexivity].
        -- eexists. split; [reflexivity|]. split.
           ++ intros [|[Hc' _]]; [discriminate | simpl in Hc'; congruence].
           ++ intros _. split; [reflexivity|]. eapply returned_final. reflexivity.
      * eexists. split; [reflexivity|]. split; [reflexivity|].
        intros Hn. exfalso. apply Hn. left. reflexivity.
Qed.

(** C4.  A failed probe and a failed load make Run return at once, with
    the failure wrapped in the name of the file or of the operation, and
    Run is done: no later probe or load, no new invocation. *)
Theorem probe_and_load_failures_are_fatal (s : state) (err : error) :
  panicked s = false ->
  (pc s = LCheck ->
   (forall keyStat, exists s',
      step' s (MCheck (inr err) keyStat) = Some s'
      /\ pc s' = LReturned (Some (Wrapped
                 (Wrapped err ("statting " ++ dir ++ "/fullchain.pem"))
                 "checking directory"))
      /\ goroutines s' = goroutines s /\ nloads s' = nloads s /\ final' s')
   /\ (forall certTime, exists s',
      step' s (MCheck (inl certTime) (inr err)) = Some s'
      /\ pc s' = LReturned (Some (Wrapped
                 (Wrapped err ("statting " ++ dir ++ "/privkey.pem"))
                 "checking directory"))
      /\ goroutines s' = goroutines s /\ nloads s' = nloads s /\ final' s'))
  /\ (forall next,
      pc s = LLoad next ->
      exists s',
        step' s (MLoad (inr err)) = Some s'
        /\ pc s' = LReturned (Some (Wrapped err
                   ("loading cert and key from " ++ certfile filepath_Join dir
                    ++ " and " ++ keyfile filepath_Join dir)))
        /\ goroutines s' = goroutines s /\ final' s').
Proof.
  intros Hp. split; [intros Hpc; split; intros|intros next Hpc];
    break_state s; unfold step, main_step; simpl;
    (eexists; split; [reflexivity|]);
    repeat (split; [reflexivity|]); eapply returned_final; reflexivity.
Qed.

(** C6 (amended).  When the outer context has ended by the time Run,
    draining, receives the completion result of the invocation it
    cancelled: if the result is an error, Run returns that error as it is
    and never starts the pending invocation; if the result is nil, Run goes
    on to load the certificate for the pending invocation. *)
Theorem shutdown_while_draining (s : state) (next : timePair) (cause : error) :
  pc s = LRecv next -> panicked s = false -> outer s = Some cause ->
  (forall e,
     pending s = Some (Some e) ->
     exists s',
       step' s MRecv = Some s'
       /\ pc s' = LReturned (Some e)
       /\ goroutines s' = goroutines s
       /\ final' s')
  /\ (pending s = Some None ->
      exists s', step' s MRecv = Some s' /\ pc s' = LLoad next).
Proof.
  intros Hpc Hp Ho. split.
  - intros e Hv.
    destruct (drain_step s next (Some e) Hpc Hp Hv) as (s' & Hs & Hg & _ & _ & Hpc').
    rewrite Ho, bool_decide_eq_true_2, orb_true_r in Hpc' by discriminate.
    exists s'. eauto using returned_final.
  - intros Hv.
    destruct (drain_step s next None Hpc Hp Hv) as (s' & Hs & _ & _ & _ & Hpc').
    eauto.
Qed.

(** *** Single flight on the prompt schedules *)

Lemma snoc_lookup {A} (l : list A) (x y : A) (i : nat) :
  (l ++ [x]) !! i = Some y ->
  (l !! i = Some y /\ (i < length l)%nat) \/ (i = length l /\ y = x).
Proof.
  intros H. apply lookup_app_Some in H as [H | [Hle H]].
  - left. split; [exact H | eauto using lookup_lt_Some].
  - right. destruct (i - length l)%nat eqn:E; simpl in H; [|discriminate].
    injection H as <-. split; [lia | reflexivity].
Qed.

Lemma snoc_insert {A} (l : list A) (x y : A) :
  <[length l := y]> (l ++ [x]) = l ++ [y].
Proof.
  rewrite insert_app_r_alt by lia. rewrite Nat.sub_diag. reflexivity.
Qed.

Lemma snoc_last {A} (l : list A) (x : A) (n : nat) :
  n = length l -> (l ++ [x]) !! n = Some x.
Proof. intros ->. apply list_lookup_middle. reflexivity. Qed.

Lemma older_exited (older : list gstate) (i : nat) (g : gstate) :
  Forall (eq GExited) older -> older !! i = Some g -> g = GExited.
Proof.
  intros Hf Hl. rewrite Forall_lookup in Hf. symmetry. eauto.
Qed.

(** A step of Run that leaves the goroutines and the channels alone. *)
Lemma single_flight_frame (s s' : state) :
  single_flight s ->
  goroutines s' = goroutines s -> chans s' = chans s -> errCh s' = errCh s ->
  (errCh s <> None -> forall g, handed_over (pc s) g -> handed_over (pc s') g) ->
  single_flight s'.
Proof.
  intros [Hg Hc He | older g chs ch Hg Hc Hl He Hf Hok Hh] Hg' Hc' He' Hpc.
  - apply sf_idle; congruence.
  - eapply sf_current; try (rewrite ?Hg', ?Hc', ?He'; eassumption).
    apply Hpc; [congruence | assumption].
Qed.

(** Run can receive from the channel of the youngest goroutine only once
    that goroutine has sent. *)
Lemma recv_current (g : gstate) (ch ch' : chan) (v : option error) :
  current_ok g ch -> recv ch = Some (v, ch') ->
  (g = GSent \/ g = GExited) /\ current_ok g ch'.
Proof.
  unfold recv. intros Hok Hr.
  destruct g; simpl in Hok; subst; simpl in Hr; try discriminate.
  - split; [auto|]. destruct (buf ch); [|rewrite Hok in Hr; discriminate].
    injection Hr as _ <-. exact Hok.
  - split; [auto|]. destruct (buf ch).
    + injection Hr as _ <-. exact Hok.
    + rewrite Hok in Hr. injection Hr as _ <-. exact Hok.
Qed.

Lemma no_close_pending (older : list gstate) (g : gstate) :
  existsb (fun g => match g with GSent => true | _ => false end) (older ++ [g]) = false ->
  g <> GSent.
Proof.
  rewrite existsb_app, orb_false_iff. intros [_ H] ->. discriminate.
Qed.

(** The invariant is kept by every step, a start of an invocation being
    taken only when no [close(errCh)] is pending. *)
Lemma single_flight_step (s s' : state) (ev : event) :
  single_flight s ->
  step' s ev = Some s' ->
  (ev = MStart -> close_pending s = false) ->
  single_flight s'.
Proof.
  intros Hsf Hs Hprompt. unfold step in Hs.
  destruct (panicked s) eqn:Hp; [discriminate|].
  destruct ev as [sc sk| | |r| |c|g|g res|g|g|e]; simpl in Hs.
  - (* MCheck *)
    unfold main_step in Hs. destruct (pc s) eqn:Hpc; try discriminate.
    destruct (check dir sc sk) as [next [err|]].
    + injection Hs as <-. eapply single_flight_frame; eauto. simpl. auto.
    + simpl in Hs. destruct (changed _ _).
      * destruct (errCh s) eqn:He; injection Hs as <-;
          (eapply single_flight_frame; [eassumption | reflexivity ..|]);
          simpl; auto; congruence.
      * injection Hs as <-. eapply single_flight_frame; eauto. simpl. auto.
  - (* MCancel *)
    unfold main_step in Hs. destruct (pc s) eqn:Hpc; try discriminate.
    injection Hs as <-. eapply single_flight_frame; eauto. simpl. auto.
  - (* MRecv *)
    unfold main_step in Hs. destruct (pc s) eqn:Hpc; try discriminate.
    destruct Hsf as [Hg Hc He | older g chs ch Hg Hc Hl He Hf Hok Hh];
      rewrite He in Hs; [discriminate|]. simpl in Hs.
    rewrite Hc, snoc_last in Hs by auto. simpl in Hs.
    destruct (recv ch) as [[v ch']|] eqn:Hr; [|discriminate]. simpl in Hs.
    injection Hs as <-.
    destruct (recv_current _ _ _ _ Hok Hr) as [Hg' Hok'].
    assert (<[length older := ch']> (chs ++ [ch]) = chs ++ [ch']) as Hins
      by (rewrite <- Hl; apply snoc_insert).
    unfold inspect.
    destruct v as [e|]; [destruct (negb _ || _)|];
      (eapply sf_current with (older := older) (g := g) (chs := chs) (ch := ch');
       simpl; eauto).
  - (* MLoad *)
    unfold main_step in Hs. destruct (pc s) eqn:Hpc; try discriminate.
    destruct r; injection Hs as <-; eapply single_flight_frame; eauto; simpl; auto.
    rewrite Hpc. simpl. auto.
  - (* MStart *)
    unfold main_step in Hs. destruct (pc s) eqn:Hpc; try discriminate.
    injection Hs as <-.
    destruct Hsf as [Hg Hc He | older g chs ch Hg Hc Hl He Hf Hok Hh].
    + eapply sf_current with (older := []) (chs := []); simpl;
        rewrite ?Hg, ?Hc; simpl; eauto. reflexivity.
    + specialize (Hprompt eq_refl). unfold close_pending in Hprompt.
      rewrite Hg in Hprompt. apply no_close_pending in Hprompt.
      rewrite Hpc in Hh. simpl in Hh. destruct Hh as [-> | ->]; [congruence|].
      eapply sf_current with (older := older ++ [GExited]) (chs := chs ++ [ch]);
        simpl; rewrite ?Hg, ?Hc, ?length_app, ?Hl; simpl; eauto.
      * apply Forall_app. split; [assumption | repeat constructor].
      * reflexivity.
  - (* MSelect *)
    unfold main_step in Hs. destruct (pc s) eqn:Hpc; try (destruct c; discriminate).
    destruct c.
    + destruct (outer s); [|discriminate]. injection Hs as <-.
      eapply single_flight_frame; eauto. simpl. auto.
    + injection Hs as <-. eapply single_flight_frame; eauto. simpl. auto.
    + destruct Hsf as [Hg Hc He | older g chs ch Hg Hc Hl He Hf Hok Hh];
        rewrite He in Hs; [discriminate|]. simpl in Hs.
      rewrite Hc, snoc_last in Hs by auto. simpl in Hs.
      destruct (recv ch) as [[v ch']|] eqn:Hr; [|discriminate]. simpl in Hs.
      injection Hs as <-.
      destruct (recv_current _ _ _ _ Hok Hr) as [Hg' Hok'].
      assert (<[length older := ch']> (chs ++ [ch]) = chs ++ [ch']) as Hins
        by (rewrite <- Hl; apply snoc_insert).
      eapply sf_current with (older := older) (g := g) (chs := chs) (ch := ch');
        simpl; eauto.
  - (* GCall *)
    destruct Hsf as [Hg Hc He | older g0 chs ch Hg Hc Hl He Hf Hok Hh];
      rewrite Hg in Hs; [discriminate|].
    destruct ((older ++ [g0]) !! g) as [st|] eqn:Hlk; [|discriminate].
    apply snoc_lookup in Hlk as [[Hlk _] | [-> ->]];
      [apply (older_exited _ _ _ Hf) in Hlk; subst; discriminate|].
    destruct g0; try discriminate. injection Hs as <-.
    eapply sf_current with (older := older) (chs := chs) (ch := ch);
      simpl; rewrite ?snoc_insert; eauto.
    destruct (pc s); simpl in *; auto; destruct Hh; discriminate.
  - (* GReturn *)
    destruct Hsf as [Hg Hc He | older g0 chs ch Hg Hc Hl He Hf Hok Hh];
      rewrite Hg in Hs; [discriminate|].
    destruct ((older ++ [g0]) !! g) as [st|] eqn:Hlk; [|discriminate].
    apply snoc_lookup in Hlk as [[Hlk _] | [-> ->]];
      [apply (older_exited _ _ _ Hf) in Hlk; subst; discriminate|].
    destruct g0; try discriminate. injection Hs as <-.
    eapply sf_current with (older := older) (chs := chs) (ch := ch);
      simpl; rewrite ?snoc_insert; eauto.
    destruct (pc s); simpl in *; auto; destruct Hh; discriminate.
  - (* GSend *)
    destruct Hsf as [Hg Hc He | older g0 chs ch Hg Hc Hl He Hf Hok Hh];
      rewrite Hg in Hs; [discriminate|].
    destruct ((older ++ [g0]) !! g) as [st|] eqn:Hlk; [|discriminate].
    apply snoc_lookup in Hlk as [[Hlk _] | [-> ->]];
      [apply (older_exited _ _ _ Hf) in Hlk; subst; discriminate|].
    destruct g0; try discriminate. simpl in Hok. subst ch.
    rewrite He in Hs. simpl in Hs. rewrite Hc, snoc_last in Hs by auto.
    simpl in Hs. injection Hs as <-.
    eapply sf_current with (older := older) (chs := chs) (ch := mkChan (Some res) false);
      simpl; rewrite ?snoc_insert; eauto.
    + rewrite <- Hl. apply snoc_insert.
    + reflexivity.
    + destruct (pc s); simpl; auto.
  - (* GClose *)
    destruct Hsf as [Hg Hc He | older g0 chs ch Hg Hc Hl He Hf Hok Hh];
      rewrite Hg in Hs; [discriminate|].
    destruct ((older ++ [g0]) !! g) as [st|] eqn:Hlk; [|discriminate].
    apply snoc_lookup in Hlk as [[Hlk _] | [-> ->]];
      [apply (older_exited _ _ _ Hf) in Hlk; subst; discriminate|].
    destruct g0; try discriminate. simpl in Hok.
    rewrite He in Hs. simpl in Hs. rewrite Hc, snoc_last in Hs by auto.
    simpl in Hs. rewrite Hok in Hs. injection Hs as <-.
    eapply sf_current with (older := older) (chs := chs) (ch := mkChan (buf ch) true);
      simpl; rewrite ?snoc_insert; eauto.
    + rewrite <- Hl. apply snoc_insert.
    + reflexivity.
    + destruct (pc s); simpl; auto.
  - (* OuterDone *)
    destruct (outer s); [discriminate|]. injection Hs as <-.
    eapply single_flight_frame; eauto.
Qed.

Lemma prompt_single_flight (s : state) : prompt' s -> single_flight s.
Proof.
  induction 1 as [|s s' ev _ IH Hs Hp].
  - apply sf_idle; reflexivity.
  - eauto using single_flight_step.
Qed.

Lemma single_flight_live_count (s : state) :
  single_flight s -> (live_count s <= 1)%nat.
Proof.
  unfold live_count.
  intros [Hg _ _ | older g chs ch Hg _ _ _ Hf _ _]; rewrite Hg; simpl; [lia|].
  rewrite filter_app, length_app.
  assert (filter (fun g => live g = true) older = []) as ->.
  { clear Hg. induction older as [|x older IH]; [reflexivity|].
    inversion Hf; subst. rewrite filter_cons. simpl.
    destruct (decide (false = true)); [discriminate | auto]. }
  simpl. rewrite filter_cons, filter_nil.
  destruct (decide (live g = true)); simpl; lia.
Qed.

(** On the schedules on which Run executes the start of an invocation only
    when no [close(errCh)] is pending, at most one invocation is live, and
    none is where Run loads the certificate and starts the next one. *)
Lemma single_flight_when_closes_are_prompt (s : state) :
  prompt' s ->
  (live_count s <= 1)%nat
  /\ (match pc s with LLoad _ | LStart _ _ => True | _ => False end ->
      live_count s = 0%nat).
Proof.
  intros Hp. apply prompt_single_flight in Hp as Hsf.
  split; [exact (single_flight_live_count s Hsf)|].
  intros Hpc. unfold live_count.
  destruct Hsf as [Hg _ _ | older g chs ch Hg _ _ _ Hf _ Hh]; rewrite Hg;
    [reflexivity|].
  rewrite filter_app, length_app.
  assert (filter (fun g => live g = true) older = []) as ->.
  { clear Hg. induction older as [|x older IH]; [reflexivity|].
    inversion Hf; subst. rewrite filter_cons. simpl.
    destruct (decide (false = true)); [discriminate | auto]. }
  destruct (pc s); try contradiction; simpl in Hh;
    destruct Hh as [-> | ->]; reflexivity.
Qed.

End RunProperties.

(** ** The producers *)

Lemma eqb_refl (e : error) : eqb e e = true.
Proof.
  revert e. fix IH 1. intros [| |w|e m|l]; simpl; auto.
  - apply String.eqb_refl.
  - rewrite IH, String.eqb_refl. reflexivity.
  - induction l as [|x l IHl]; [reflexivity|]. rewrite IH. exact IHl.
Qed.

Lemma Is_chain_eqb (e target : error) :
  eqb e target = true -> Is_chain e target = true.
Proof. intros H. destruct e; unfold Is_chain; fold Is_chain; rewrite H; reflexivity. Qed.

Lemma Is_chain_refl (e : error) : Is_chain e e = true.
Proof. apply Is_chain_eqb, eqb_refl. Qed.

Lemma Is_chain_Wrapped (e target : error) (msg : string) :
  Is_chain e target = true -> Is_chain (Wrapped e msg) target = true.
Proof.
  intros H. change (eqb (Wrapped e msg) target || Is_chain e target = true).
  rewrite H. apply orb_true_r.
Qed.

Lemma Is_chain_Joined (e target : error) (errs : list error) :
  In e errs -> Is_chain e target = true -> Is_chain (Joined errs) target = true.
Proof.
  intros Hin H.
  change (eqb (Joined errs) target
          || existsb (fun e' => Is_chain e' target) errs = true).
  apply orb_true_iff. right. apply existsb_exists. eauto.
Qed.

Section ProducerProperties.

Variable filepath_Join : string -> string -> string.
Variable tls_X509KeyPair : string -> string -> Certificate + error.
Variable dir : string.

Local Abbreviation FromDir_round := (certdir_FromDir_round filepath_Join tls_X509KeyPair dir).
Local Abbreviation FromDir := (certdir_FromDir filepath_Join tls_X509KeyPair dir).
Local Abbreviation Times_round := (certs_Times_round filepath_Join dir).

Lemma FromDir_round_goes_on (st : fromDir) (r : round) :
  readable tls_X509KeyPair r = true ->
  exited (out st) = false -> ch_closed (out st) = false ->
  exited (out (FromDir_round st r)) = false
  /\ ch_closed (out (FromDir_round st r)) = false.
Proof.
  unfold readable, certdir_FromDir_round, certdir_FromDir_wait, certdir_Times.
  intros Hr He Hc. rewrite He.
  destruct (statCert r); [|discriminate]. destruct (statKey r); [|discriminate].
  destruct (readCert r); [|discriminate]. destruct (readKey r); [|discriminate].
  destruct (tls_X509KeyPair _ _); [|discriminate].
  destruct (negb _ || negb _), (onSend r), (onWait r); simpl; auto.
Qed.

Lemma FromDir_rounds_go_on (rounds : list round) (st : fromDir) :
  forallb (readable tls_X509KeyPair) rounds = true ->
  exited (out st) = false -> ch_closed (out st) = false ->
  exited (out (fold_left FromDir_round rounds st)) = false
  /\ ch_closed (out (fold_left FromDir_round rounds st)) = false.
Proof.
  revert st. induction rounds as [|r rounds IH]; intros st Hr He Hc; simpl; auto.
  apply andb_true_iff in Hr as [Hr Hrs].
  destruct (FromDir_round_goes_on st r Hr He Hc). auto.
Qed.

(** C7 fails for [certdir.FromDir].  Its goroutine returns, and closes the
    channel, on an error of [Times], [os.ReadFile] or [tls.X509KeyPair]
    only: as long as the two files are there and parse, it is still in its
    loop and the channel is open after any number of rounds, whatever the
    selects took, the case [<-ctx.Done()] of a cancelled context
    included. *)
Theorem certdir_FromDir_outlives_its_context (rounds : list round) :
  forallb (readable tls_X509KeyPair) rounds = true ->
  exited (out (FromDir rounds)) = false
  /\ ch_closed (out (FromDir rounds)) = false.
Proof.
  intros Hr. apply FromDir_rounds_go_on; auto.
Qed.

(** The goroutine of [certs.Times] does return, and closes its channel, in
    the round in which a select takes [<-ctx.Done()]. *)
Lemma certs_Times_returns_when_done
    (st : Time * producer Time) (r : round) (certTime keyTime : Time) (err : error) :
  exited (snd st) = false ->
  statCert r = inl certTime -> statKey r = inl keyTime ->
  onSend r = Done err -> onWait r = Done err ->
  exited (snd (Times_round st r)) = true
  /\ ch_closed (snd (Times_round st r)) = true
  /\ errptr (snd (Times_round st r)) = Some err.
Proof.
  destruct st as [latest p]. simpl. intros He Hc Hk Hs Hw.
  unfold certs_Times_round. rewrite He, Hc, Hk, Hs, Hw.
  destruct (reported _ _ _); simpl; auto.
Qed.

(** C9 (amended).  In both packages, a value that does not decode and a
    pair that does not parse make the goroutine store that error, wrapped,
    and return, and it does nothing after that.  The release function of
    package [certs] returns the wrapped result of [cmd.Wait] joined with
    the stored error, so it reports both; the one of package [certdir]
    returns the stored error alone when there is one, and the result of
    [cmd.Wait] when there is none. *)
Theorem FromCommand_failures (deferClose : bool) (p : producer Certificate) (d : decoding) :
  exited p = false ->
  (forall err,
     decoded d = inr err ->
     FromCommand_round tls_X509KeyPair deferClose p d
     = mkProducer (Some (Wrapped err "decoding JSON"))
                  (deferClose || ch_closed p) (sent p) true)
  /\ (forall kp err,
        decoded d = inl kp ->
        tls_X509KeyPair (CertPEMBlock kp) (KeyPEMBlock kp) = inr err ->
        FromCommand_round tls_X509KeyPair deferClose p d
        = mkProducer (Some (Wrapped err "creating key pair"))
                     (deferClose || ch_closed p) (sent p) true)
  /\ (forall q d', exited q = true ->
        FromCommand_round tls_X509KeyPair deferClose q d' = q)
  /\ (forall cmd, reports_both (certs_wait cmd))
  /\ (forall cmd status failure,
        certs_wait cmd (Some status) (Some failure)
        = Some (Joined [Wrapped status ("waiting for " ++ cmd); failure]))
  /\ (forall waitErr failure, certdir_wait waitErr (Some failure) = Some failure)
  /\ (forall waitErr, certdir_wait waitErr None = waitErr).
Proof.
  intros He. unfold FromCommand_round. rewrite He.
  split; [intros err ->; reflexivity|].
  split; [intros kp err -> ->; reflexivity|].
  split; [intros q d' ->; reflexivity|].
  split; [|split; [|split]; intros; reflexivity].
  intros cmd status failure. unfold certs_wait, Wrap, Join, Is.
  change (omap id [Some (Wrapped status ("waiting for " ++ cmd)); Some failure])
    with [Wrapped status ("waiting for " ++ cmd); failure].
  split.
  - apply Is_chain_Joined with (e := Wrapped status ("waiting for " ++ cmd));
      [left; reflexivity | apply Is_chain_Wrapped, Is_chain_refl].
  - apply Is_chain_Joined with (e := failure);
      [right; left; reflexivity | apply Is_chain_refl].
Qed.

End ProducerProperties.

(** ** Executions of Run on a watched directory *)

(** C1 fails on the code: after the schedule [late_close], invocations 1
    and 2 are both inside [f]; invocation 2 was started, and its
    certificate loaded, although invocation 1 has not returned, so no
    completion signal of it exists. *)
Theorem late_close_runs_two_invocations :
  exists s,
    exec join watched init late_close = Some s
    /\ goroutines s = [GExited; GRunning 2 cert2; GRunning 3 cert3]
    /\ live_count s = 2%nat
    /\ nloads s = 3%nat
    /\ panicked s = false.
Proof.
  eexists. split; [vm_compute; reflexivity|]. repeat split.
Qed.

(** C2 fails as it is written: a nil result is not a cancellation error,
    and Run discards it and goes on to load. *)
Lemma nil_is_discarded_too : ~ discards_only_cancellations.
Proof.
  intros H.
  assert (exists s', step join watched (after drained_nil) MRecv = Some s'
                     /\ pc s' = LLoad (mkPair (at_second 200) (at_second 200)))
    as (s' & Hs & Hpc) by (eexists; split; vm_compute; reflexivity).
  apply (H (after drained_nil) _ None s') in Hpc as [Hc _];
    try (vm_compute; reflexivity); [discriminate | exact Hs].
Qed.

(** C6 fails as it is written: the cancelled invocation returns nil, and
    Run loads the certificate and starts invocation 1 after the
    shutdown. *)
Lemma pending_invocation_is_started : ~ shutdown_ends_draining.
Proof.
  intros H.
  assert (exists s', exec join watched (after shutdown_in_drain)
                       (completes 0 None ++ [MRecv; MLoad (inl cert2); MStart]) = Some s'
                     /\ length (goroutines s') = 2%nat)
    as (s' & Hs & Hl) by (eexists; split; vm_compute; reflexivity).
  apply (H shutdown_in_drain (after shutdown_in_drain)
           (mkPair (at_second 200) (at_second 200)) Canceled) in Hs as [Hn _];
    try (vm_compute; reflexivity).
  rewrite Hl in Hn. vm_compute in Hn. discriminate.
Qed.

(** C3 fails as it is written: invocation 0 returns nil on its own, its
    context not cancelled; a tick finds the files renewed before the select
    of Run has received the result, so the next receive of Run is the one
    of the drain, which discards the nil: Run does not return, it goes on to
    load. *)
Lemma completion_met_by_the_drain_is_discarded : ~ completion_is_terminal.
Proof.
  intros H.
  assert (exists s2, step join watched (after completed_before_the_tick) MRecv = Some s2
                     /\ pc s2 = LLoad (mkPair (at_second 200) (at_second 200)))
    as (s2 & Hs & Hpc) by (eexists; split; vm_compute; reflexivity).
  apply (H first_invocation (after first_invocation) 0%nat 1%nat cert1 None
           (renewal 200) (after completed_before_the_tick) MRecv s2) in Hs;
    try (vm_compute; reflexivity).
  rewrite Hpc in Hs. discriminate.
Qed.

(** A tick that finds the files as the first probe found them. *)
Lemma unchanged_tick_witness :
  exists s3,
    step join watched (after (first_invocation ++ [MSelect SelTick]))
         (MCheck (inl (utc_second 100)) (inl (utc_second 100))) = Some s3
    /\ pc s3 = LSelect
    /\ last s3 = last (after (first_invocation ++ [MSelect SelTick]))
    /\ nloads s3 = nloads (after (first_invocation ++ [MSelect SelTick]))
    /\ goroutines s3 = goroutines (after (first_invocation ++ [MSelect SelTick])).
Proof.
  apply (unchanged_tick_is_a_no_op join watched
           init (after [MCheck (issued 100) (issued 100)])
           (after (first_invocation ++ [MSelect SelTick]))
           [MLoad (inl cert1); MStart; GCall 0; MSelect SelTick]
           (at_second 100) (at_second 100)); vm_compute; reflexivity.
Defined.

Lemma drain_verdict_witness :
  pc (after acknowledged) = LRecv (mkPair (at_second 200) (at_second 200))
  /\ pending (after acknowledged) = Some (Some Canceled)
  /\ exists s',
       step join watched (after acknowledged) MRecv = Some s'
       /\ pc s' = LLoad (mkPair (at_second 200) (at_second 200)).
Proof.
  split; [reflexivity|]. split; [reflexivity|].
  destruct (drain_verdict join watched (after acknowledged)
              (mkPair (at_second 200) (at_second 200)) (Some Canceled))
    as (s' & Hs & Hiff & _); [reflexivity | reflexivity | reflexivity |].
  exists s'. split; [exact Hs|]. apply Hiff. right. split; reflexivity.
Defined.

Lemma drained_nil_witness :
  pending (after drained_nil) = Some None
  /\ exists s',
       step join watched (after drained_nil) MRecv = Some s'
       /\ pc s' = LLoad (mkPair (at_second 200) (at_second 200)).
Proof.
  split; [reflexivity|].
  destruct (drained_nil_is_swallowed join watched (after drained_nil)
              (mkPair (at_second 200) (at_second 200)))
    as [(s' & Hs & Hpc & _) _]; [reflexivity | reflexivity | reflexivity | reflexivity |].
  exists s'. split; assumption.
Defined.

(** An invocation that fails on its own while Run is in its select, and
    one that returns nil on its own just before a tick finds the files
    renewed. *)
Lemma natural_completion_verdict_witness :
  (exists s',
     exec join watched (after first_invocation)
          [GReturn 0 (Some listener_failed); GSend 0; MSelect SelErrCh] = Some s'
     /\ pc s' = LReturned (Some listener_failed))
  /\ (exists s',
        exec join watched (after first_invocation)
             [GReturn 0 None; GSend 0; MSelect SelTick;
              MCheck (issued 200) (issued 200); MCancel; MRecv] = Some s'
        /\ pc s' = LLoad (mkPair (at_second 200) (at_second 200))).
Proof.
  destruct (proj2 (proj2 (natural_completion_verdict join watched
                            (after first_invocation) (Some listener_failed) eq_refl))
              0%nat 1%nat cert1 0%nat eq_refl eq_refl eq_refl eq_refl eq_refl)
    as [(s1 & H1 & Hpc1 & _) _].
  destruct (proj2 (proj2 (proj2 (natural_completion_verdict join watched
                            (after first_invocation) None eq_refl))
              0%nat 1%nat cert1 0%nat eq_refl eq_refl eq_refl eq_refl eq_refl)
              (at_second 200) (at_second 200) eq_refl)
    as (s2 & H2 & Hpc2 & _).
  split; [exists s1; split; assumption|].
  exists s2. split; [exact H2|]. apply Hpc2. left. reflexivity.
Defined.

Lemma probe_failure_witness :
  exists s',
    step join watched init (MCheck (inr missing) (inr missing)) = Some s'
    /\ pc s' = LReturned (Some (Wrapped
               (Wrapped missing "statting /etc/certs/fullchain.pem")
               "checking directory"))
    /\ goroutines s' = [].
Proof.
  destruct (proj1 (proj1 (probe_and_load_failures_are_fatal join watched
                     init missing eq_refl) eq_refl) (inr missing))
    as (s' & Hs & Hpc & Hg & _).
  exists s'. split; [exact Hs|]. split; [exact Hpc | exact Hg].
Defined.

Lemma shutdown_while_draining_witness :
  outer (after shutdown_acknowledged) = Some Canceled
  /\ exists s',
       step join watched (after shutdown_acknowledged) MRecv = Some s'
       /\ pc s' = LReturned (Some Canceled)
       /\ goroutines s' = goroutines (after shutdown_acknowledged).
Proof.
  split; [reflexivity|].
  destruct (proj1 (shutdown_while_draining join watched
                     (after shutdown_acknowledged)
                     (mkPair (at_second 200) (at_second 200)) Canceled
                     eq_refl eq_refl eq_refl) Canceled eq_refl)
    as (s' & Hs & Hpc & Hg & _).
  exists s'. split; [exact Hs|]. split; [exact Hpc | exact Hg].
Defined.

Lemma change_detection_witness :
  changed (mkPair (at_second 100) (at_second 100))
          (mkPair (at_second 100) (at_second 50)) = true.
Proof.
  apply (proj1 (proj2 change_detection)). right. reflexivity.
Defined.

(** ** Executions of the producers *)

Lemma certdir_FromDir_witness :
  exited (out (certdir_FromDir join parse_any watched
                 [cancelled_round; cancelled_round; cancelled_round])) = false
  /\ ch_closed (out (certdir_FromDir join parse_any watched
                      [cancelled_round; cancelled_round; cancelled_round])) = false.
Proof.
  apply (certdir_FromDir_outlives_its_context join parse_any watched
           [cancelled_round; cancelled_round; cancelled_round]).
  reflexivity.
Defined.

(** C9 fails as it is written for [certdir.FromCommand]: its release
    function returns the decoding error, and the exit status is not in
    it. *)
Lemma certdir_wait_drops_the_exit_status : ~ reports_both certdir_wait.
Proof.
  intros H.
  destruct (H exit_status_1 (Wrapped EOF "decoding JSON")) as [H1 _].
  vm_compute in H1. discriminate.
Qed.

Lemma FromCommand_failures_witness :
  certs_FromCommand parse_any [mkDecoding (inr EOF) Ready]
  = mkProducer (Some (Wrapped EOF "decoding JSON")) true [] true
  /\ certs_wait "sh -c certdir" (Some exit_status_1) (Some (Wrapped EOF "decoding JSON"))
     = Some (Joined [Wrapped exit_status_1 "waiting for sh -c certdir";
                     Wrapped EOF "decoding JSON"]).
Proof.
  destruct (FromCommand_failures parse_any true newProducer
              (mkDecoding (inr EOF) Ready) eq_refl)
    as (Hd & _ & _ & _ & Hw & _).
  split; [apply (Hd EOF eq_refl) | apply Hw].
Defined.

(** * More properties of the code *)

(** ** The variables of Run on every schedule *)

Section RunOnEverySchedule.

Variable filepath_Join : string -> string -> string.
Variable dir : string.

Local Abbreviation step' := (step filepath_Join dir).
Local Abbreviation exec' := (exec filepath_Join dir).
Local Abbreviation reachable' := (reachable filepath_Join dir).
Local Abbreviation prompt' := (prompt filepath_Join dir).
Local Abbreviation prompt_schedule' := (prompt_schedule filepath_Join dir).

Lemma exec_keeps (P : state -> Prop) :
  (forall s ev s', P s -> step' s ev = Some s' -> P s') ->
  forall evs s s', P s -> exec' s evs = Some s' -> P s'.
Proof.
  intros Hstep evs. induction evs as [|ev evs IH]; intros s s' HP He; simpl in He.
  - injection He as <-. exact HP.
  - destruct (step' s ev) as [s1|] eqn:Hs; [|discriminate]. simpl in He. eauto.
Qed.

Lemma wired_init : wired init.
Proof.
  split; simpl; auto; try (intros; lia). intros g k c H. discriminate.
Qed.

Lemma all_true_lookup (l : list bool) (i : nat) :
  (i < length l)%nat -> map (fun _ => true) l !! i = Some true.
Proof.
  intros Hi. rewrite list_lookup_fmap.
  destruct (lookup_lt_is_Some_2 l i Hi) as [b ->]. reflexivity.
Qed.

Lemma all_true (l : list bool) : Forall (eq true) (map (fun _ : bool => true) l).
Proof. induction l; simpl; constructor; auto. Qed.

Lemma running_insert (gs : list gstate) (g : nat) (x : gstate) (n : nat) :
  (forall g' k c, gs !! g' = Some (GRunning k c) -> (k < n)%nat) ->
  (forall k c, x = GRunning k c -> (k < n)%nat) ->
  forall g' k c, <[g := x]> gs !! g' = Some (GRunning k c) -> (k < n)%nat.
Proof.
  intros Hgs Hx g' k c H.
  apply list_lookup_insert_Some in H as [(-> & -> & _) | [_ H]]; eauto.
Qed.

(** [return] keeps the wiring and cancels every context. *)
Lemma wired_returns (s : state) (err : option error) :
  length (chans s) = length (goroutines s) ->
  length (ctxs s) = S (length (goroutines s)) ->
  fctx s = length (goroutines s) ->
  errCh s = match length (goroutines s) with O => None | S n => Some n end ->
  (length (goroutines s) = 0%nat -> last s = zeroPair) ->
  (forall g k c,
     goroutines s !! g = Some (GRunning k c) -> (k < length (ctxs s))%nat) ->
  (length (goroutines s) <= nloads s)%nat ->
  (nloads s <= nprobes s)%nat ->
  wired (returns err s).
Proof.
  intros H1 H2 H3 H4 Hl Hr H5 H6. split; simpl; rewrite ?length_map; auto.
  - intros i Hi. apply all_true_lookup. lia.
  - apply all_true.
Qed.

Lemma wired_step (s s' : state) (ev : event) :
  wired s -> step' s ev = Some s' -> wired s'.
Proof.
  intros [H1 H2 H3 H4 Hl Hr H5 H6 H7 H8] Hs. unfold step in Hs.
  destruct (panicked s) eqn:Hp; [discriminate|].
  destruct ev as [sc sk| | |r| |c|g|g res|g|g|e]; simpl in Hs.
  - (* MCheck *)
    unfold main_step in Hs. destruct (pc s) eqn:Hpc; try discriminate.
    destruct (check dir sc sk) as [next [err|]].
    + injection Hs as <-. apply wired_returns; simpl; auto.
    + simpl in Hs. destruct (changed _ _).
      * destruct (errCh s) eqn:He; injection Hs as <-;
          split; simpl; auto; try lia; congruence.
      * injection Hs as <-. split; simpl; auto.
  - (* MCancel *)
    unfold main_step in Hs. destruct (pc s) eqn:Hpc; try discriminate.
    injection Hs as <-. split; simpl; rewrite ?length_insert; auto.
    + intros i Hi. rewrite list_lookup_insert_ne by lia. auto.
    + intros _. apply list_lookup_insert_eq. lia.
  - (* MRecv *)
    unfold main_step in Hs. destruct (pc s) eqn:Hpc; try discriminate.
    destruct (errCh s) as [c|] eqn:He; [|discriminate]. simpl in Hs.
    destruct (chans s !! c) as [ch|]; [|discriminate]. simpl in Hs.
    destruct (recv ch) as [[v ch']|]; [|discriminate]. simpl in Hs.
    injection Hs as <-. unfold inspect.
    destruct v as [e|]; [destruct (negb _ || _)|];
      try (apply wired_returns; simpl; rewrite ?length_insert; auto; try lia; congruence);
      split; simpl; rewrite ?length_insert, ?He; auto.
  - (* MLoad *)
    unfold main_step in Hs. destruct (pc s) eqn:Hpc; try discriminate.
    destruct r; injection Hs as <-.
    + split; simpl; auto; lia.
    + apply wired_returns; simpl; auto; lia.
  - (* MStart *)
    unfold main_step in Hs. destruct (pc s) eqn:Hpc; try discriminate.
    injection Hs as <-. unfold start.
    split; simpl; rewrite ?length_app; simpl; try lia.
    + rewrite H1. replace (length (goroutines s) + 1)%nat
        with (S (length (goroutines s))) by lia. reflexivity.
    + intros g k c' H. apply lookup_app_Some in H as [H | [_ H]].
      * apply Hr in H. lia.
      * destruct (g - length (goroutines s))%nat; simpl in H; discriminate.
    + intros i Hi. rewrite lookup_app_l by lia.
      destruct (decide (i = fctx s)) as [->|Hne]; [|apply H7; lia].
      apply H8. rewrite H4. destruct (length (goroutines s)); [lia | discriminate].
  - (* MSelect *)
    unfold main_step in Hs. destruct (pc s) eqn:Hpc; try (destruct c; discriminate).
    destruct c; simpl in Hs.
    + destruct (outer s); [|discriminate]. injection Hs as <-.
      apply wired_returns; auto.
    + injection Hs as <-. split; simpl; auto.
    + destruct (errCh s) as [c|] eqn:He; [|discriminate]. simpl in Hs.
      destruct (chans s !! c) as [ch|]; [|discriminate]. simpl in Hs.
      destruct (recv ch) as [[v ch']|]; [|discriminate]. simpl in Hs.
      injection Hs as <-.
      apply wired_returns; simpl; rewrite ?length_insert; auto; congruence.
  - (* GCall *)
    destruct (goroutines s !! g) as [[]|]; try discriminate.
    injection Hs as <-. split; simpl; rewrite ?length_insert; auto.
    apply running_insert; [exact Hr|]. intros k c' [= <- _]. lia.
  - (* GReturn *)
    destruct (goroutines s !! g) as [[]|]; try discriminate.
    injection Hs as <-. split; simpl; rewrite ?length_insert; auto.
    apply running_insert; [exact Hr|]. discriminate.
  - (* GSend *)
    destruct (goroutines s !! g) as [[]|]; try discriminate.
    destruct (errCh s) as [c|] eqn:He; [|discriminate]. simpl in Hs.
    destruct (chans s !! c) as [ch|]; [|discriminate]. simpl in Hs.
    destruct (closed ch); [injection Hs as <-; split; simpl; rewrite ?He; auto|].
    destruct (buf ch); [discriminate|].
    injection Hs as <-. split; simpl; rewrite ?length_insert, ?He; auto.
    apply running_insert; [exact Hr|]. discriminate.
  - (* GClose *)
    destruct (goroutines s !! g) as [[]|]; try discriminate.
    destruct (errCh s) as [c|] eqn:He; [|discriminate]. simpl in Hs.
    destruct (chans s !! c) as [ch|]; [|discriminate]. simpl in Hs.
    destruct (closed ch); injection Hs as <-;
      split; simpl; rewrite ?length_insert, ?He; auto.
    apply running_insert; [exact Hr|]. discriminate.
  - (* OuterDone *)
    destruct (outer s); [discriminate|]. injection Hs as <-. split; simpl; auto.
Qed.

Lemma reachable_wired (s : state) : reachable' s -> wired s.
Proof.
  intros [evs He]. eapply exec_keeps; eauto using wired_step, wired_init.
Qed.

(** X1.  On every schedule, Run has started at most as many invocations
    as it has loaded certificates, and has loaded at most as many
    certificates as it has probed the directory; it has made one channel
    for each invocation it started, and one context for each besides the
    context of line 200. *)
Theorem starts_loads_probes (s : state) :
  reachable' s ->
  (length (goroutines s) <= nloads s <= nprobes s)%nat
  /\ length (chans s) = length (goroutines s)
  /\ length (ctxs s) = S (length (goroutines s)).
Proof.
  intros Hr. apply reachable_wired in Hr as [H1 H2 _ _ _ _ H5 H6 _ _].
  repeat split; auto; destruct (pc s); lia.
Qed.

(** X2.  On every schedule, once Run has returned, every context it
    derived is cancelled; in particular an invocation that is still inside
    [f] holds a cancelled context. *)
Theorem return_cancels_every_context (s : state) (r : option error) :
  reachable' s -> pc s = LReturned r ->
  Forall (eq true) (ctxs s)
  /\ forall g k c,
       goroutines s !! g = Some (GRunning k c) -> ctxs s !! k = Some true.
Proof.
  intros Hr Hpc. apply reachable_wired in Hr as [_ _ _ _ _ Hk _ _ _ H8].
  rewrite Hpc in H8. split; [exact H8|].
  intros g k c Hg. apply Hk in Hg.
  destruct (lookup_lt_is_Some_2 _ _ Hg) as [b Hb].
  rewrite Forall_lookup in H8. rewrite Hb. f_equal. symmetry. eauto.
Qed.

(** X3.  On every schedule, when Run has stored the context of a newer
    invocation in [fctx], the contexts of all earlier invocations have
    been cancelled; and where Run drains, loads or starts, it has
    cancelled the context of the invocation it replaces. *)
Theorem superseded_contexts_are_cancelled (s : state) :
  reachable' s ->
  (forall i, (0 < i < fctx s)%nat -> ctxs s !! i = Some true)
  /\ (goroutines s <> [] ->
      match pc s with
      | LRecv _ | LLoad _ | LStart _ _ => ctxs s !! fctx s = Some true
      | _ => True
      end).
Proof.
  intros Hr. apply reachable_wired in Hr as [_ _ _ H4 _ _ _ _ H7 H8].
  split; [exact H7|]. intros Hg.
  assert (errCh s <> None) as He.
  { rewrite H4. destruct (goroutines s); [congruence | discriminate]. }
  destruct (pc s); auto.
Qed.

(** X4.  As long as no invocation has been started, a probe leads to a
    load exactly when the time stamp of a file is not the zero instant.
    While both files carry the zero time, Run goes to its select without
    loading, and the case [<-errCh] of the select is never ready. *)
Theorem first_load (s : state) (certTime keyTime : Time) :
  reachable' s -> pc s = LCheck -> panicked s = false -> goroutines s = [] ->
  (equal (mkPair certTime keyTime) zeroPair = false ->
   step' s (MCheck (inl certTime) (inl keyTime))
   = Some (set_pc (LLoad (mkPair certTime keyTime)) (count_probe s)))
  /\ (equal (mkPair certTime keyTime) zeroPair = true ->
      step' s (MCheck (inl certTime) (inl keyTime))
      = Some (set_pc LSelect (count_probe s))
      /\ step' (set_pc LSelect (count_probe s)) (MSelect SelErrCh) = None).
Proof.
  intros Hr Hpc Hp Hg. apply reachable_wired in Hr as [_ _ _ H4 Hl _ _ _ _ _].
  rewrite Hg in H4, Hl. simpl in H4. specialize (Hl eq_refl).
  destruct s as [pc0 last0 errCh0 fctx0 chans0 ctxs0 gs0 outer0 panicked0 np0 nl0].
  simpl in *. subst. unfold step, main_step, changed. simpl.
  split; intros ->; simpl; auto.
Qed.


(** ** Run and its goroutines on the prompt schedules *)

Lemma prompt_exec (evs : list event) (s s' : state) :
  prompt' s -> prompt_schedule' s evs = true -> exec' s evs = Some s' -> prompt' s'.
Proof.
  revert s. induction evs as [|ev evs IH]; intros s Hp Hs He; simpl in *.
  - injection He as <-. exact Hp.
  - destruct (step' s ev) as [s1|] eqn:Hstep; [|discriminate]. simpl in He.
    apply andb_true_iff in Hs as [Hev Hs].
    apply (IH s1); auto. eapply prompt_step; eauto.
    intros ->. apply negb_true_iff. exact Hev.
Qed.

Lemma no_panic_step (s s' : state) (ev : event) :
  single_flight s -> step' s ev = Some s' -> panicked s' = false.
Proof.
  intros Hsf Hs. unfold step in Hs.
  destruct (panicked s) eqn:Hp; [discriminate|].
  destruct ev as [sc sk| | |r| |c|g|g res|g|g|e]; simpl in Hs.
  - unfold main_step in Hs. destruct (pc s); try discriminate.
    destruct (check dir sc sk) as [next [err|]]; [injection Hs as <-; exact Hp|].
    simpl in Hs. destruct (changed _ _); [destruct (errCh s)|];
      injection Hs as <-; exact Hp.
  - unfold main_step in Hs. destruct (pc s); try discriminate.
    injection Hs as <-. exact Hp.
  - unfold main_step in Hs. destruct (pc s); try discriminate.
    destruct (errCh s) as [c|]; [|discriminate]. simpl in Hs.
    destruct (chans s !! c) as [ch|]; [|discriminate]. simpl in Hs.
    destruct (recv ch) as [[v ch']|]; [|discriminate]. simpl in Hs.
    injection Hs as <-. unfold inspect.
    destruct v as [e|]; [destruct (negb _ || _)|]; exact Hp.
  - unfold main_step in Hs. destruct (pc s); try discriminate.
    destruct r; injection Hs as <-; exact Hp.
  - unfold main_step in Hs. destruct (pc s); try discriminate.
    injection Hs as <-. exact Hp.
  - unfold main_step in Hs. destruct (pc s); try (destruct c; discriminate).
    destruct c; simpl in Hs.
    + destruct (outer s); [|discriminate]. injection Hs as <-. exact Hp.
    + injection Hs as <-. exact Hp.
    + destruct (errCh s) as [c|]; [|discriminate]. simpl in Hs.
      destruct (chans s !! c) as [ch|]; [|discriminate]. simpl in Hs.
      destruct (recv ch) as [[v ch']|]; [|discriminate]. simpl in Hs.
      injection Hs as <-. exact Hp.
  - destruct (goroutines s !! g) as [[]|]; try discriminate.
    injection Hs as <-. exact Hp.
  - destruct (goroutines s !! g) as [[]|]; try discriminate.
    injection Hs as <-. exact Hp.
  - destruct Hsf as [Hg Hc He | older g0 chs ch Hg Hc Hl He Hf Hok Hh];
      rewrite Hg in Hs; [discriminate|].
    destruct ((older ++ [g0]) !! g) as [st|] eqn:Hlk; [|discriminate].
    apply snoc_lookup in Hlk as [[Hlk _] | [-> ->]];
      [apply (older_exited _ _ _ Hf) in Hlk; subst; discriminate|].
    destruct g0; try discriminate. simpl in Hok. subst ch.
    rewrite He in Hs. simpl in Hs. rewrite Hc, snoc_last in Hs by auto.
    simpl in Hs. injection Hs as <-. exact Hp.
  - destruct Hsf as [Hg Hc He | older g0 chs ch Hg Hc Hl He Hf Hok Hh];
      rewrite Hg in Hs; [discriminate|].
    destruct ((older ++ [g0]) !! g) as [st|] eqn:Hlk; [|discriminate].
    apply snoc_lookup in Hlk as [[Hlk _] | [-> ->]];
      [apply (older_exited _ _ _ Hf) in Hlk; subst; discriminate|].
    destruct g0; try discriminate. simpl in Hok.
    rewrite He in Hs. simpl in Hs. rewrite Hc, snoc_last in Hs by auto.
    simpl in Hs. rewrite Hok in Hs. injection Hs as <-. exact Hp.
  - destruct (outer s); [discriminate|]. injection Hs as <-. exact Hp.
Qed.

Lemma prompt_no_panic (s : state) : prompt' s -> panicked s = false.
Proof.
  intros Hp. destruct Hp as [|s s' ev Hs Hstep _]; [reflexivity|].
  eapply no_panic_step; eauto using prompt_single_flight.
Qed.

(** The goroutine that has not exited is the youngest one, and [errCh]
    holds its channel. *)
Lemma single_flight_youngest (s : state) (g : nat) (st : gstate) :
  single_flight s -> goroutines s !! g = Some st -> st <> GExited ->
  exists ch,
    errCh s = Some g /\ chans s !! g = Some ch /\ current_ok st ch.
Proof.
  intros [Hg _ _ | older g0 chs ch Hg Hc Hl He Hf Hok _] Hlk Hne;
    rewrite Hg in Hlk; [discriminate|].
  apply snoc_lookup in Hlk as [[Hlk _] | [-> ->]];
    [apply (older_exited _ _ _ Hf) in Hlk; congruence|].
  exists ch. rewrite Hc. split; [exact He|]. split; [|exact Hok].
  apply snoc_last. auto.
Qed.

(** X6.  On the prompt schedules Run, draining, waits: as long as a
    goroutine has not sent the result of its invocation, the receive
    [<-errCh] of the drain is blocked. *)
Theorem drain_waits_for_the_result
    (s : state) (next : timePair) (g : nat) (st : gstate) :
  prompt' s -> pc s = LRecv next ->
  goroutines s !! g = Some st -> st <> GSent -> st <> GExited ->
  step' s MRecv = None.
Proof.
  intros Hp Hpc Hg Hs1 Hs2.
  destruct (single_flight_youngest s g st) as (ch & He & Hch & Hok);
    eauto using prompt_single_flight.
  unfold step, main_step. rewrite (prompt_no_panic s Hp), Hpc, He. simpl.
  rewrite Hch. simpl.
  destruct st; simpl in Hok; try congruence; subst ch; reflexivity.
Qed.

(** X7.  On the prompt schedules no goroutine panics, and a goroutine
    whose invocation has returned is never blocked: its send finds the
    buffer of its channel free, and its close finds the channel open. *)
Theorem goroutine_runs_to_its_end (s : state) :
  prompt' s ->
  panicked s = false
  /\ (forall g res,
        goroutines s !! g = Some (GReturned res) ->
        exists s',
          step' s (GSend g) = Some s'
          /\ goroutines s' !! g = Some GSent /\ panicked s' = false)
  /\ (forall g,
        goroutines s !! g = Some GSent ->
        exists s',
          step' s (GClose g) = Some s'
          /\ goroutines s' !! g = Some GExited /\ panicked s' = false).
Proof.
  intros Hp. pose proof (prompt_no_panic s Hp) as Hnp.
  pose proof (prompt_single_flight filepath_Join dir s Hp) as Hsf.
  split; [exact Hnp|]. split.
  - intros g res Hg.
    destruct (single_flight_youngest s g _ Hsf Hg) as (ch & He & Hch & Hok);
      [discriminate|]. simpl in Hok. subst ch.
    unfold step, goroutine_step. rewrite Hnp, Hg, He. simpl. rewrite Hch. simpl.
    eexists. split; [reflexivity|]. simpl. split; [|exact Hnp].
    apply list_lookup_insert_eq. eauto using lookup_lt_Some.
  - intros g Hg.
    destruct (single_flight_youngest s g _ Hsf Hg) as (ch & He & Hch & Hok);
      [discriminate|]. simpl in Hok.
    unfold step, goroutine_step. rewrite Hnp, Hg, He. simpl. rewrite Hch. simpl.
    rewrite Hok. eexists. split; [reflexivity|]. simpl. split; [|exact Hnp].
    apply list_lookup_insert_eq. eauto using lookup_lt_Some.
Qed.

End RunOnEverySchedule.

(** ** The order of time stamps *)

Lemma Time_Before_spec (t u : Time) :
  Time_Before t u = true <->
  (sec t < sec u \/ (sec t = sec u /\ nsec t < nsec u)).
Proof.
  unfold Time_Before.
  rewrite orb_true_iff, andb_true_iff, !Z.ltb_lt, Z.eqb_eq. reflexivity.
Qed.

Lemma Time_Before_not (t u : Time) :
  Time_Before t u = false <->
  ~ (sec t < sec u \/ (sec t = sec u /\ nsec t < nsec u)).
Proof.
  rewrite <- Time_Before_spec. destruct (Time_Before t u); split; congruence.
Qed.

Lemma Time_Before_irrefl (t : Time) : Time_Before t t = false.
Proof. apply Time_Before_not. lia. Qed.

Lemma Time_Before_trans (t u v : Time) :
  Time_Before t u = true -> Time_Before u v = true -> Time_Before t v = true.
Proof. rewrite !Time_Before_spec. lia. Qed.

(** [u] is not after [t], and [t] is before [v]: [u] is before [v]. *)
Lemma Time_Before_le_lt (t u v : Time) :
  Time_Before t u = false -> Time_Before t v = true -> Time_Before u v = true.
Proof. rewrite Time_Before_not, !Time_Before_spec. lia. Qed.

Lemma Time_Before_lt_le (t u v : Time) :
  Time_Before t u = true -> Time_Before t v = false -> Time_Before u v = false.
Proof. rewrite !Time_Before_not, Time_Before_spec. lia. Qed.

Lemma increasing_snoc (ts : list Time) (x : Time) :
  increasing ts ->
  (forall i t, ts !! i = Some t -> Time_Before t x = true) ->
  increasing (ts ++ [x]).
Proof.
  intros Hts Hx i j t u Hij Hi Hj.
  apply snoc_lookup in Hj as [[Hj Hlt] | [-> ->]].
  - rewrite lookup_app_l in Hi by lia. eauto.
  - rewrite lookup_app_l in Hi by lia. eauto.
Qed.

(** ** [certs.Times] *)

Section TimesProperties.

Variable filepath_Join : string -> string -> string.
Variable dir : string.

Local Abbreviation Times_round := (certs_Times_round filepath_Join dir).
Local Abbreviation Times := (certs_Times filepath_Join dir).

Lemma ordered_round (st : Time * producer Time) (r : round) :
  ordered st -> ordered (Times_round st r).
Proof.
  destruct st as [latest p]. intros [Hinc Hle]. simpl in *.
  unfold certs_Times_round.
  destruct (exited p); [split; assumption|].
  destruct (statCert r) as [certTime|]; [|split; assumption].
  destruct (statKey r) as [keyTime|]; [|split; assumption].
  destruct (reported latest certTime keyTime) eqn:Hrep.
  - unfold reported in Hrep.
    assert (forall i t, sent p !! i = Some t ->
                        Time_Before t (newest certTime keyTime) = true) as Hlt
      by (intros; eauto using Time_Before_le_lt).
    assert (forall i t, sent p !! i = Some t ->
                        Time_Before (newest certTime keyTime) t = false) as Hle'
      by (intros; eauto using Time_Before_lt_le).
    destruct (onSend r); [split; simpl; assumption|].
    assert (ordered (newest certTime keyTime, send (newest certTime keyTime) p))
      as [H1 H2].
    { split; simpl; [apply increasing_snoc; assumption|].
      intros i t Hi. apply snoc_lookup in Hi as [[Hi _] | [_ ->]];
        eauto using Time_Before_irrefl. }
    destruct (onWait r); split; assumption.
  - destruct (onWait r); split; assumption.
Qed.

Lemma ordered_rounds (rounds : list round) (st : Time * producer Time) :
  ordered st -> ordered (fold_left Times_round rounds st).
Proof.
  revert st. induction rounds as [|r rounds IH]; intros st H; simpl;
    auto using ordered_round.
Qed.

(** X8.  The time stamps the goroutine of [certs.Times] sends are strictly
    increasing, and none of them is after the value of [latest]: no time
    stamp is sent twice, and a file whose time stamp does not move past
    [latest] is not announced. *)
Theorem certs_Times_sends_increasing (rounds : list round) :
  increasing (sent (snd (Times rounds)))
  /\ forall i t,
       sent (snd (Times rounds)) !! i = Some t ->
       Time_Before (fst (Times rounds)) t = false.
Proof.
  apply ordered_rounds. split; simpl; [|discriminate].
  intros i j t u _ Hi. discriminate.
Qed.

Lemma settled_round (st : Time * producer Time) (r : round) :
  settled (snd st) -> settled (snd (Times_round st r)).
Proof.
  destruct st as [latest p]. unfold settled. simpl. intros [Hc He].
  unfold certs_Times_round.
  destruct (exited p) eqn:Hex; [simpl; rewrite Hex; auto|].
  assert (errptr p = None) as Hn.
  { destruct (errptr p) eqn:E; [|reflexivity].
    assert (false = true) by (apply He; discriminate). discriminate. }
  assert (forall q : producer Time,
            ch_closed q = false -> exited q = false -> errptr q = None ->
            ch_closed q = exited q /\ (exited q = true <-> errptr q <> None)) as Hrun.
  { intros q -> -> ->. split; [reflexivity|]. split; [discriminate | congruence]. }
  destruct (statCert r) as [certTime|]; [|simpl; split; [auto|split; [discriminate|auto]]].
  destruct (statKey r) as [keyTime|]; [|simpl; split; [auto|split; [discriminate|auto]]].
  destruct (reported latest certTime keyTime).
  - destruct (onSend r); [simpl; split; [auto|split; [discriminate|auto]]|].
    destruct (onWait r); simpl; [split; [auto|split; [discriminate|auto]]|].
    apply Hrun; simpl; congruence.
  - destruct (onWait r); simpl; [split; [auto|split; [discriminate|auto]]|].
    apply Hrun; congruence.
Qed.

Lemma settled_rounds (rounds : list round) (st : Time * producer Time) :
  settled (snd st) -> settled (snd (fold_left Times_round rounds st)).
Proof.
  revert st. induction rounds as [|r rounds IH]; intros st H; simpl;
    auto using settled_round.
Qed.

Lemma settled_new {A : Type} : settled (@newProducer A).
Proof. split; [reflexivity|]. split; [discriminate | intros H; contradiction H; reflexivity]. Qed.

(** X9.  After any number of rounds, the goroutine of [certs.Times] has
    closed its channel exactly when it has returned, and it has returned
    exactly when [*errptr] is not nil: a reader that finds the channel
    closed finds an error. *)
Theorem certs_Times_closes_with_an_error (rounds : list round) :
  ch_closed (snd (Times rounds)) = exited (snd (Times rounds))
  /\ (exited (snd (Times rounds)) = true <-> errptr (snd (Times rounds)) <> None).
Proof.
  apply (settled_rounds rounds (zeroTime, newProducer)). apply settled_new.
Qed.

Lemma observed_round (st : Time * producer Time) (r : round) (rs : list round) :
  (forall i t, sent (snd st) !! i = Some t -> exists r', In r' rs /\ observed t r') ->
  forall i t,
    sent (snd (Times_round st r)) !! i = Some t ->
    exists r', In r' (rs ++ [r]) /\ observed t r'.
Proof.
  destruct st as [latest p]. simpl. intros Hold.
  assert (forall i t, sent p !! i = Some t ->
                      exists r', In r' (rs ++ [r]) /\ observed t r') as Hold'.
  { intros i t Hi. destruct (Hold i t Hi) as (r' & Hin & Ho).
    exists r'. split; [apply in_or_app; auto | exact Ho]. }
  unfold certs_Times_round.
  destruct (exited p); [exact Hold'|].
  destruct (statCert r) as [certTime|] eqn:Hc; [|exact Hold'].
  destruct (statKey r) as [keyTime|] eqn:Hk; [|exact Hold'].
  destruct (reported latest certTime keyTime).
  - destruct (onSend r); [exact Hold'|].
    assert (forall i t, sent (send (newest certTime keyTime) p) !! i = Some t ->
                        exists r', In r' (rs ++ [r]) /\ observed t r') as Hnew.
    { simpl. intros i t Hi. apply snoc_lookup in Hi as [[Hi _] | [_ ->]]; eauto.
      exists r. split; [apply in_or_app; right; left; reflexivity|].
      unfold observed, newest. rewrite Hc, Hk.
      destruct (Time_Before certTime keyTime); auto. }
    destruct (onWait r); exact Hnew.
  - destruct (onWait r); exact Hold'.
Qed.

Lemma observed_rounds (rounds rs : list round) (st : Time * producer Time) :
  (forall i t, sent (snd st) !! i = Some t -> exists r', In r' rs /\ observed t r') ->
  forall i t,
    sent (snd (fold_left Times_round rounds st)) !! i = Some t ->
    exists r', In r' (rs ++ rounds) /\ observed t r'.
Proof.
  revert rs st. induction rounds as [|r rounds IH]; intros rs st H; simpl.
  - rewrite app_nil_r. exact H.
  - replace (rs ++ r :: rounds) with ((rs ++ [r]) ++ rounds)
      by (rewrite <- app_assoc; reflexivity).
    apply IH. apply observed_round. exact H.
Qed.

(** X10.  Every time stamp the goroutine of [certs.Times] sends is the
    modification time [os.Stat] gave for one of the two files in one of
    its rounds. *)
Theorem certs_Times_sends_observed_times (rounds : list round) (i : nat) (t : Time) :
  sent (snd (Times rounds)) !! i = Some t ->
  exists r, In r rounds /\ observed t r.
Proof.
  intros H. eapply (observed_rounds rounds [] (zeroTime, newProducer)); [|exact H].
  intros i' t' H'. discriminate.
Qed.

End TimesProperties.

(** ** [FromDir], [FromCommand] and the commands *)

Section MoreProducerProperties.

Variable filepath_Join : string -> string -> string.
Variable tls_X509KeyPair : string -> string -> Certificate + error.
Variable dir : string.

Local Abbreviation FromDir_round := (certdir_FromDir_round filepath_Join tls_X509KeyPair dir).
Local Abbreviation FromDir := (certdir_FromDir filepath_Join tls_X509KeyPair dir).
Local Abbreviation Command_round := (FromCommand_round tls_X509KeyPair).
Local Abbreviation parsed' := (parsed tls_X509KeyPair).
Local Abbreviation delivered' := (delivered tls_X509KeyPair).
Local Abbreviation failure' := (failure tls_X509KeyPair).
Local Abbreviation loaded' := (loaded tls_X509KeyPair).
Local Abbreviation handed' := (handed tls_X509KeyPair).
Local Abbreviation load_failure' := (load_failure filepath_Join tls_X509KeyPair dir).
Local Abbreviation receive := (certs_FromDir_receive filepath_Join tls_X509KeyPair dir).
Local Abbreviation certs_FromDir' := (certs_FromDir filepath_Join tls_X509KeyPair dir).
Local Abbreviation quiet' := (quiet tls_X509KeyPair).
Local Abbreviation cmd_round := (cmd_certdir_round filepath_Join dir).
Local Abbreviation cmd := (cmd_certdir filepath_Join dir).
Local Abbreviation in_step' := (in_step tls_X509KeyPair).
Local Abbreviation in_step_certs' := (in_step_certs tls_X509KeyPair).

(** *** [certdir.FromDir] *)

Lemma closed_on_error_round (st : fromDir) (r : round) :
  closed_on_error (out st) -> closed_on_error (out (FromDir_round st r)).
Proof.
  unfold closed_on_error. intros [Hc He].
  unfold certdir_FromDir_round, certdir_FromDir_wait, certdir_Times.
  destruct (exited (out st)) eqn:Hex; [rewrite Hex; auto|].
  assert (forall err msg,
            ch_closed (leave true (store (Some (Wrapped err msg)) (out st)))
            = exited (leave true (store (Some (Wrapped err msg)) (out st)))
            /\ (exited (leave true (store (Some (Wrapped err msg)) (out st))) = true ->
                exists err' msg',
                  errptr (leave true (store (Some (Wrapped err msg)) (out st)))
                  = Some (Wrapped err' msg'))) as Hfail
    by (intros; simpl; eauto).
  destruct (statCert r); [|apply Hfail].
  destruct (statKey r); [|apply Hfail].
  destruct (negb _ || negb _).
  - destruct (readCert r); [|apply Hfail].
    destruct (readKey r); [|apply Hfail].
    destruct (tls_X509KeyPair _ _); [|apply Hfail].
    destruct (onSend r), (onWait r); simpl; rewrite Hc, Hex;
      (split; [reflexivity | discriminate]).
  - destruct (onWait r); simpl; rewrite Hc, Hex;
      (split; [reflexivity | discriminate]).
Qed.

(** X11.  After any number of rounds, the goroutine of [certdir.FromDir]
    has closed its channel exactly when it has returned, and when it has,
    [*errptr] holds a wrapped error of [Times], [os.ReadFile] or
    [tls.X509KeyPair]. *)
Theorem certdir_FromDir_closes_with_an_error (rounds : list round) :
  ch_closed (out (FromDir rounds)) = exited (out (FromDir rounds))
  /\ (exited (out (FromDir rounds)) = true ->
      exists err msg, errptr (out (FromDir rounds)) = Some (Wrapped err msg)).
Proof.
  unfold certdir_FromDir.
  assert (closed_on_error (out fromDir_init)) as H
    by (split; [reflexivity | discriminate]).
  revert H. generalize fromDir_init.
  induction rounds as [|r rounds IH]; intros st H; simpl;
    auto using closed_on_error_round.
Qed.

(** *** [FromCommand] *)

Lemma Command_exited (deferClose : bool) (ds : list decoding) (p : producer Certificate) :
  exited p = true -> fold_left (Command_round deferClose) ds p = p.
Proof.
  intros He. induction ds as [|d ds IH]; simpl; [reflexivity|].
  unfold FromCommand_round at 2. rewrite He. exact IH.
Qed.

Lemma Command_delivers (deferClose : bool) (ds : list decoding) (p : producer Certificate) :
  exited p = false -> forallb delivered' ds = true ->
  fold_left (Command_round deferClose) ds p
  = mkProducer (errptr p) (ch_closed p) (sent p ++ omap parsed' ds) false.
Proof.
  revert p. induction ds as [|d ds IH]; intros p He Hd; simpl.
  - rewrite app_nil_r. destruct p; simpl in *; subst; reflexivity.
  - apply andb_true_iff in Hd as [Hd Hds].
    unfold delivered, parsed in Hd. unfold parsed at 1.
    unfold FromCommand_round at 2. rewrite He.
    destruct (decoded d) as [kp|]; [|discriminate].
    destruct (tls_X509KeyPair _ _) as [cert|]; [|discriminate].
    destruct (onDeliver d); [discriminate|].
    rewrite IH by auto. simpl. rewrite <- app_assoc. reflexivity.
Qed.

Lemma Command_fails (deferClose : bool) (d : decoding) (p : producer Certificate) :
  exited p = false -> delivered' d = false ->
  Command_round deferClose p d
  = mkProducer (failure' d) (deferClose || ch_closed p) (sent p) true
  /\ failure' d <> None.
Proof.
  intros He Hd. unfold delivered, parsed in Hd. unfold failure, FromCommand_round.
  rewrite He. destruct (decoded d) as [kp|]; [|split; [reflexivity | discriminate]].
  destruct (tls_X509KeyPair _ _) as [cert|]; [|split; [reflexivity | discriminate]].
  destruct (onDeliver d); [split; [reflexivity | discriminate] | discriminate].
Qed.

(** X12.  The goroutine of [FromCommand] sends the certificates of the
    values it decodes, in their order, up to the first value that does not
    decode, does not parse, or is not taken before the context ends; it
    stores the error of that one, returns, and ignores what follows.  The
    goroutine of package [certs] then closes the channel; the one of
    package [certdir] leaves it open. *)
Theorem FromCommand_delivers_until_failure
    (good : list decoding) (bad : decoding) (rest : list decoding) :
  forallb delivered' good = true -> delivered' bad = false ->
  certs_FromCommand tls_X509KeyPair (good ++ bad :: rest)
  = mkProducer (failure' bad) true (omap parsed' good) true
  /\ certdir_FromCommand tls_X509KeyPair (good ++ bad :: rest)
     = mkProducer (failure' bad) false (omap parsed' good) true
  /\ failure' bad <> None.
Proof.
  intros Hg Hb. unfold certs_FromCommand, certdir_FromCommand.
  rewrite !fold_left_app. simpl.
  rewrite !(Command_delivers _ good newProducer eq_refl Hg). simpl.
  split; [|split].
  - destruct (Command_fails true bad
                (mkProducer None false (omap parsed' good) false) eq_refl Hb) as [-> _].
    apply Command_exited. reflexivity.
  - destruct (Command_fails false bad
                (mkProducer None false (omap parsed' good) false) eq_refl Hb) as [-> _].
    apply Command_exited. reflexivity.
  - apply (Command_fails true bad newProducer eq_refl Hb).
Qed.

Lemma Command_settled_round (deferClose : bool) (p : producer Certificate) (d : decoding) :
  (exited p = true <-> errptr p <> None) ->
  ch_closed p = (deferClose && exited p) ->
  (exited (Command_round deferClose p d) = true
   <-> errptr (Command_round deferClose p d) <> None)
  /\ ch_closed (Command_round deferClose p d)
     = (deferClose && exited (Command_round deferClose p d)).
Proof.
  intros He Hc. unfold FromCommand_round.
  destruct (exited p) eqn:Hex; [rewrite Hex; auto|].
  assert (forall e,
            (exited (leave deferClose (store (Some e) p)) = true
             <-> errptr (leave deferClose (store (Some e) p)) <> None)
            /\ ch_closed (leave deferClose (store (Some e) p))
               = (deferClose && exited (leave deferClose (store (Some e) p)))) as Hfail.
  { intros e. simpl. rewrite Hc. split; [split; [discriminate | reflexivity]|].
    destruct deferClose; reflexivity. }
  destruct (decoded d) as [kp|]; [|apply Hfail].
  destruct (tls_X509KeyPair _ _); [|apply Hfail].
  destruct (onDeliver d); [apply Hfail|].
  simpl. rewrite Hex. auto.
Qed.

Lemma Command_settled (deferClose : bool) (ds : list decoding) (p : producer Certificate) :
  (exited p = true <-> errptr p <> None) ->
  ch_closed p = (deferClose && exited p) ->
  (exited (fold_left (Command_round deferClose) ds p) = true
   <-> errptr (fold_left (Command_round deferClose) ds p) <> None)
  /\ ch_closed (fold_left (Command_round deferClose) ds p)
     = (deferClose && exited (fold_left (Command_round deferClose) ds p)).
Proof.
  revert p. induction ds as [|d ds IH]; intros p He Hc; simpl; [auto|].
  destruct (Command_settled_round deferClose p d He Hc). auto.
Qed.

(** X13.  Whatever the subprocess writes, the goroutine of [FromCommand]
    has returned exactly when [*errptr] is not nil.  So once it has
    returned, the release function does not return nil, in either
    package, whatever [cmd.Wait] returned: the end of the output of a
    subprocess that exited with status 0 is reported as an error. *)
Theorem FromCommand_ends_with_an_error
    (ds : list decoding) (cmd : string) (waitErr : option error) :
  let p := certs_FromCommand tls_X509KeyPair ds in
  let q := certdir_FromCommand tls_X509KeyPair ds in
  (exited p = true <-> errptr p <> None)
  /\ ch_closed p = exited p
  /\ (exited q = true <-> errptr q <> None)
  /\ ch_closed q = false
  /\ (exited p = true -> certs_wait cmd waitErr (errptr p) <> None)
  /\ (exited q = true -> certdir_wait waitErr (errptr q) <> None).
Proof.
  intros p q.
  destruct (Command_settled true ds newProducer) as [Hp Hpc];
    [split; [discriminate | intros H; contradiction H; reflexivity] | reflexivity |].
  destruct (Command_settled false ds newProducer) as [Hq Hqc];
    [split; [discriminate | intros H; contradiction H; reflexivity] | reflexivity |].
  fold (certs_FromCommand tls_X509KeyPair ds) in Hp, Hpc.
  fold (certdir_FromCommand tls_X509KeyPair ds) in Hq, Hqc.
  fold p in Hp, Hpc. fold q in Hq, Hqc. simpl in Hpc, Hqc.
  split; [exact Hp|]. split; [exact Hpc|]. split; [exact Hq|]. split; [exact Hqc|].
  split.
  - intros He. apply Hp in He. unfold certs_wait.
    destruct (errptr p) as [e|]; [|congruence].
    unfold Join. destruct (Wrap waitErr _); simpl; discriminate.
  - intros He. apply Hq in He. unfold certdir_wait.
    destruct (errptr q) as [e|]; congruence.
Qed.

(** *** [certs.FromDir] *)

Lemma receive_exited (rs : list round) (p : producer Certificate) :
  exited p = true -> fold_left receive rs p = p.
Proof.
  intros He. induction rs as [|r rs IH]; simpl; [reflexivity|].
  unfold certs_FromDir_receive at 2. rewrite He. exact IH.
Qed.

Lemma receive_loaded (rs : list round) (p : producer Certificate) :
  exited p = false -> Forall (fun r => load_failure' r = None) rs ->
  exited (fold_left receive rs p) = false
  /\ ch_closed (fold_left receive rs p) = ch_closed p
  /\ sent (fold_left receive rs p) = sent p ++ omap handed' rs.
Proof.
  revert p. induction rs as [|r rs IH]; intros p He Hl; simpl.
  - rewrite app_nil_r. auto.
  - inversion Hl as [|r' rs' Hr Hrs]; subst.
    unfold load_failure in Hr. unfold handed, loaded.
    unfold certs_FromDir_receive at 2 4 6. rewrite He.
    destruct (readCert r) as [certpem|]; [|discriminate].
    destruct (readKey r) as [keypem|]; [|discriminate].
    destruct (tls_X509KeyPair certpem keypem) as [cert|]; [|discriminate].
    destruct (onSend r).
    + destruct (IH (store (Wrap (Some err) "sending certificate on channel") p) He Hrs)
        as (H1 & H2 & H3). auto.
    + destruct (IH (send cert p) He Hrs) as (H1 & H2 & H3).
      split; [exact H1|]. split; [exact H2|].
      rewrite H3. simpl. rewrite <- app_assoc. reflexivity.
Qed.

Lemma receive_fails (r : round) (p : producer Certificate) (e : error) :
  exited p = false -> load_failure' r = Some e ->
  receive p r = mkProducer (Some e) true (sent p) true.
Proof.
  intros He Hl. unfold load_failure in Hl. unfold certs_FromDir_receive.
  rewrite He. destruct (readCert r) as [certpem|]; [|injection Hl as <-; reflexivity].
  destruct (readKey r) as [keypem|]; [|injection Hl as <-; reflexivity].
  destruct (tls_X509KeyPair certpem keypem) as [cert|];
    [discriminate | injection Hl as <-; reflexivity].
Qed.

(** X14.  When every file read for a received time stamp succeeds and
    parses, the goroutine of [certs.FromDir] ends, once the channel of
    [certs.Times] is closed, with the error of [certs.Times] in [*errptr]
    and its own channel closed, having sent the certificates of the rounds
    in which a receiver took them.  An error it stored when a send was
    abandoned ("sending certificate on channel") is overwritten. *)
Theorem certs_FromDir_reports_the_error_of_Times
    (received : list round) (timesErr : option error) :
  Forall (fun r => load_failure' r = None) received ->
  certs_FromDir' received timesErr
  = mkProducer timesErr true (omap handed' received) true.
Proof.
  intros Hl. unfold certs_FromDir.
  destruct (receive_loaded received newProducer eq_refl Hl) as (H1 & H2 & H3).
  rewrite H1. unfold leave, store. rewrite H3. reflexivity.
Qed.

(** X15.  At the first received time stamp for which a file cannot be
    read or the pair does not parse, the goroutine of [certs.FromDir]
    stores that error, wrapped, closes its channel and returns: the time
    stamps that follow are not handled, and the error of [certs.Times] is
    not reported. *)
Theorem certs_FromDir_stops_at_the_first_failure
    (good : list round) (bad : round) (rest : list round)
    (e : error) (timesErr : option error) :
  Forall (fun r => load_failure' r = None) good ->
  load_failure' bad = Some e ->
  certs_FromDir' (good ++ bad :: rest) timesErr
  = mkProducer (Some e) true (omap handed' good) true.
Proof.
  intros Hg Hb. unfold certs_FromDir. rewrite fold_left_app. simpl.
  destruct (receive_loaded good newProducer eq_refl Hg) as (H1 & H2 & H3).
  rewrite (receive_fails bad _ e H1 Hb), receive_exited by reflexivity.
  cbn [exited]. rewrite H3. reflexivity.
Qed.

Lemma receive_error_round (p : producer Certificate) (r : round) :
  (exited p = true -> errptr p <> None) -> ch_closed p = exited p ->
  (exited (receive p r) = true -> errptr (receive p r) <> None)
  /\ ch_closed (receive p r) = exited (receive p r).
Proof.
  intros He Hc. unfold certs_FromDir_receive.
  destruct (exited p) eqn:Hex; [rewrite Hex; auto|].
  destruct (readCert r); [|simpl; split; [discriminate | reflexivity]].
  destruct (readKey r); [|simpl; split; [discriminate | reflexivity]].
  destruct (tls_X509KeyPair _ _); [|simpl; split; [discriminate | reflexivity]].
  destruct (onSend r); simpl; rewrite Hex; (split; [discriminate | exact Hc]).
Qed.

Lemma receive_error (rs : list round) (p : producer Certificate) :
  (exited p = true -> errptr p <> None) -> ch_closed p = exited p ->
  (exited (fold_left receive rs p) = true -> errptr (fold_left receive rs p) <> None)
  /\ ch_closed (fold_left receive rs p) = exited (fold_left receive rs p).
Proof.
  revert p. induction rs as [|r rs IH]; intros p He Hc; simpl; [auto|].
  destruct (receive_error_round p r He Hc). auto.
Qed.

(** X16.  Once the goroutine of [certs.Times] has returned, the goroutine
    of [certs.FromDir] that reads its channel ends with its own channel
    closed and with an error in [*errptr], whatever it received and
    whatever the reads answered: [certs.FromDir] never ends with a nil
    error. *)
Theorem certs_FromDir_ends_with_an_error (polls received : list round) :
  exited (snd (certs_Times filepath_Join dir polls)) = true ->
  let p := certs_FromDir' received
             (errptr (snd (certs_Times filepath_Join dir polls))) in
  exited p = true /\ ch_closed p = true /\ errptr p <> None.
Proof.
  intros Hex. simpl.
  assert (errptr (snd (certs_Times filepath_Join dir polls)) <> None) as Herr.
  { apply (settled_rounds filepath_Join dir polls (zeroTime, newProducer) settled_new).
    exact Hex. }
  unfold certs_FromDir.
  destruct (receive_error received newProducer) as [He Hc];
    [discriminate | reflexivity |].
  destruct (exited (fold_left receive received newProducer)) eqn:E.
  - rewrite Hc. auto.
  - simpl. auto.
Qed.

(** *** The commands *)

Lemma piped_parsed (certpem keypem : string) (cert : Certificate) :
  tls_X509KeyPair certpem keypem = inl cert ->
  parsed' (piped (mkKeyPair certpem keypem)) = Some cert
  /\ delivered' (piped (mkKeyPair certpem keypem)) = true.
Proof. intros H. unfold delivered, parsed. simpl. rewrite H. auto. Qed.

Lemma in_step_round (c : command) (st : fromDir) (re : round * option error) :
  in_step' c st -> quiet' re = true ->
  in_step' (cmd_round c re) (FromDir_round st (fst re)).
Proof.
  intros (Hr & Hc & Hk & Hd & Ho) Hq. destruct re as [r encodeErr].
  unfold quiet, readable in Hq. simpl in Hq. apply andb_true_iff in Hq as [Hq1 Hq2].
  unfold cmd_certdir_round, cmd_certdir_wait, certdir_FromDir_round,
    certdir_FromDir_wait, certdir_Times. simpl.
  rewrite Hr, Ho. simpl.
  destruct (statCert r) as [certTime|]; [|discriminate].
  destruct (statKey r) as [keyTime|]; [|discriminate].
  destruct (readCert r) as [certpem|]; [|discriminate].
  destruct (readKey r) as [keypem|]; [|discriminate].
  destruct (tls_X509KeyPair certpem keypem) as [cert|] eqn:Hp; [|discriminate].
  destruct encodeErr; [discriminate|].
  destruct (onSend r); [discriminate|]. destruct (onWait r); [discriminate|].
  rewrite <- Hc, <- Hk, (Time_Equal_sym (seenCertTime c)), (Time_Equal_sym (seenKeyTime c)).
  destruct (negb _ || negb _).
  - destruct (piped_parsed certpem keypem cert Hp) as [Hpp Hdd].
    repeat split; simpl; auto.
    + rewrite map_app, forallb_app, Hd. simpl. rewrite Hdd. reflexivity.
    + rewrite map_app, omap_app. simpl. unfold send. simpl.
      rewrite Hpp. reflexivity.
  - repeat split; auto.
Qed.

Lemma in_step_rounds (rs : list (round * option error)) (c : command) (st : fromDir) :
  in_step' c st -> forallb quiet' rs = true ->
  in_step' (fold_left cmd_round rs c) (fold_left FromDir_round (map fst rs) st).
Proof.
  revert c st. induction rs as [|re rs IH]; intros c st H Hq; simpl; [exact H|].
  apply andb_true_iff in Hq as [Hq Hqs]. auto using in_step_round.
Qed.

(** X17.  The command [cmd/certdir] piped into [certdir.FromCommand] does
    what [certdir.FromDir] does: over rounds without failure and without
    cancellation, the goroutine of [FromCommand] that decodes the values
    the command emitted sends the certificates the goroutine of [FromDir]
    sends on the same rounds, and both go on. *)
Theorem cmd_certdir_piped_is_FromDir (rs : list (round * option error)) :
  forallb quiet' rs = true ->
  result (cmd rs) = None
  /\ certdir_FromCommand tls_X509KeyPair (map piped (emitted (cmd rs)))
     = out (FromDir (map fst rs)).
Proof.
  intros Hq.
  destruct (in_step_rounds rs command_init fromDir_init) as (Hr & _ & _ & Hd & Ho);
    [repeat split; reflexivity | exact Hq |].
  split; [exact Hr|].
  unfold certdir_FromCommand, certdir_FromDir, cmd_certdir.
  rewrite (Command_delivers false _ newProducer eq_refl Hd), Ho. reflexivity.
Qed.

Lemma cmd_returned_round (c : command) (re : round * option error) :
  result c <> None -> cmd_round c re = c.
Proof.
  intros Hr. destruct re as [r e]. unfold cmd_certdir_round.
  destruct (result c); [reflexivity | congruence].
Qed.

Lemma cmd_returned (rs : list (round * option error)) (c : command) :
  result c <> None -> fold_left cmd_round rs c = c.
Proof.
  intros Hr. induction rs as [|re rs IH]; simpl; [reflexivity|].
  rewrite cmd_returned_round by exact Hr. exact IH.
Qed.

Lemma cmd_done_round (c : command) (r : round) (encodeErr : option error) (err : error) :
  onWait r = Done err -> result (cmd_round c (r, encodeErr)) <> None.
Proof.
  intros Hw. unfold cmd_certdir_round, cmd_certdir_wait. rewrite Hw.
  destruct (result c) eqn:E; [rewrite E; discriminate|].
  destruct (certdir_Times _ _ _ _) as [[? ?] [?|]]; [discriminate|].
  destruct (negb _ || negb _); [|discriminate].
  destruct (readCert r); [|discriminate]. destruct (readKey r); [|discriminate].
  destruct encodeErr; discriminate.
Qed.

(** X18.  Unlike the goroutine of [certdir.FromDir], the loop of
    [cmd/certdir] ends with the context: after a round whose select took
    [<-ctx.Done()], [run] has returned, and the rounds that follow change
    nothing. *)
Theorem cmd_certdir_ends_with_its_context
    (before after : list (round * option error)) (r : round)
    (encodeErr : option error) (err : error) :
  onWait r = Done err ->
  result (cmd (before ++ [(r, encodeErr)])) <> None
  /\ cmd (before ++ (r, encodeErr) :: after) = cmd (before ++ [(r, encodeErr)]).
Proof.
  intros Hw. unfold cmd_certdir. rewrite !fold_left_app. simpl.
  pose proof (cmd_done_round (fold_left cmd_round before command_init)
                r encodeErr err Hw) as Hr.
  split; [exact Hr | apply cmd_returned; exact Hr].
Qed.

Lemma in_step_certs_round (c : command) (p : producer Certificate)
    (re : round * option error) :
  in_step_certs' c p -> quiet' re = true ->
  in_step_certs' (cmd_certs_receive filepath_Join dir c re) (receive p (fst re)).
Proof.
  intros (Hr & He & Hd & Hs) Hq. destruct re as [r encodeErr].
  unfold quiet, readable in Hq. simpl in Hq. apply andb_true_iff in Hq as [Hq1 Hq2].
  unfold cmd_certs_receive, certs_FromDir_receive. simpl. rewrite Hr, He.
  destruct (statCert r); [|discriminate]. destruct (statKey r); [|discriminate].
  destruct (readCert r) as [certpem|]; [|discriminate].
  destruct (readKey r) as [keypem|]; [|discriminate].
  destruct (tls_X509KeyPair certpem keypem) as [cert|] eqn:Hp; [|discriminate].
  destruct encodeErr; [discriminate|].
  destruct (onSend r); [discriminate|].
  destruct (piped_parsed certpem keypem cert Hp) as [Hpp Hdd].
  repeat split; simpl; auto.
  - rewrite map_app, forallb_app, Hd. simpl. rewrite Hdd. reflexivity.
  - rewrite map_app, omap_app, Hs. simpl. rewrite Hpp. reflexivity.
Qed.

Lemma in_step_certs_rounds (rs : list (round * option error))
    (c : command) (p : producer Certificate) :
  in_step_certs' c p -> forallb quiet' rs = true ->
  in_step_certs' (fold_left (cmd_certs_receive filepath_Join dir) rs c)
                (fold_left receive (map fst rs) p).
Proof.
  revert c p. induction rs as [|re rs IH]; intros c p H Hq; simpl; [exact H|].
  apply andb_true_iff in Hq as [Hq Hqs]. auto using in_step_certs_round.
Qed.

(** X19.  The command [cmd/certs] piped into [certs.FromCommand] does what
    [certs.FromDir] does: when the files of every received time stamp are
    read, encoded and parsed without failure and a receiver takes every
    certificate, [run] returns what [certs.Times] stored through its error
    pointer, and the goroutine of [FromCommand] that decodes the values the
    command emitted sends the certificates the goroutine of [FromDir]
    sends for the same time stamps. *)
Theorem cmd_certs_piped_is_FromDir
    (rs : list (round * option error)) (timesErr : option error) :
  forallb quiet' rs = true ->
  result (cmd_certs filepath_Join dir rs timesErr) = Some timesErr
  /\ sent (certs_FromCommand tls_X509KeyPair
             (map piped (emitted (cmd_certs filepath_Join dir rs timesErr))))
     = sent (certs_FromDir' (map fst rs) timesErr).
Proof.
  intros Hq.
  destruct (in_step_certs_rounds rs command_init newProducer) as (Hr & He & Hd & Hs);
    [repeat split; reflexivity | exact Hq |].
  unfold cmd_certs, certs_FromDir. rewrite Hr, He. simpl.
  split; [reflexivity|].
  unfold certs_FromCommand.
  rewrite (Command_delivers true _ newProducer eq_refl Hd). simpl. auto.
Qed.

End MoreProducerProperties.

(** ** Executions that show the properties above *)

Lemma reachable_after (evs : list event) :
  exec join watched init evs = Some (after evs) -> reachable join watched (after evs).
Proof. intros H. exists evs. exact H. Qed.

Lemma prompt_after (evs : list event) :
  prompt_schedule join watched init evs = true ->
  exec join watched init evs = Some (after evs) -> prompt join watched (after evs).
Proof. intros Hs He. eapply prompt_exec; eauto using prompt_init. Qed.

Lemma starts_loads_probes_witness :
  (length (goroutines (after late_close)) <= nloads (after late_close)
   <= nprobes (after late_close))%nat.
Proof.
  apply (starts_loads_probes join watched (after late_close)).
  apply reachable_after. vm_compute. reflexivity.
Defined.

Lemma return_cancels_witness :
  pc (after returned_on_shutdown) = LReturned (Some Canceled)
  /\ goroutines (after returned_on_shutdown) = [GRunning 1 cert1]
  /\ ctxs (after returned_on_shutdown) !! 1%nat = Some true.
Proof.
  split; [vm_compute; reflexivity|]. split; [vm_compute; reflexivity|].
  destruct (return_cancels_every_context join watched
              (after returned_on_shutdown) (Some Canceled)) as [_ H];
    [apply reachable_after; vm_compute; reflexivity | vm_compute; reflexivity |].
  apply (H 0%nat 1%nat cert1). vm_compute. reflexivity.
Defined.

Lemma superseded_contexts_witness :
  fctx (after replaced) = 2%nat /\ ctxs (after replaced) !! 1%nat = Some true.
Proof.
  split; [vm_compute; reflexivity|].
  destruct (superseded_contexts_are_cancelled join watched (after replaced)) as [H _];
    [apply reachable_after; vm_compute; reflexivity|].
  apply (H 1%nat). vm_compute. split; constructor.
Defined.

Lemma first_load_witness :
  step join watched init (MCheck (inl zeroTime) (inl (utc_second 0)))
  = Some (set_pc LSelect (count_probe init))
  /\ step join watched (set_pc LSelect (count_probe init)) (MSelect SelErrCh) = None.
Proof.
  destruct (first_load join watched init zeroTime (utc_second 0)) as [_ H];
    [exists []; reflexivity | reflexivity | reflexivity | reflexivity |].
  apply H. reflexivity.
Defined.


Lemma drain_waits_witness :
  goroutines (after draining) = [GRunning 1 cert1]
  /\ step join watched (after draining) MRecv = None.
Proof.
  split; [vm_compute; reflexivity|].
  apply (drain_waits_for_the_result join watched (after draining)
           (mkPair (at_second 200) (at_second 200)) 0%nat (GRunning 1 cert1));
    [apply prompt_after; vm_compute; reflexivity
    | vm_compute; reflexivity | vm_compute; reflexivity
    | discriminate | discriminate].
Defined.

Lemma goroutine_runs_witness :
  exists s',
    step join watched (after returned_not_sent) (GSend 0) = Some s'
    /\ goroutines s' !! 0%nat = Some GSent /\ panicked s' = false.
Proof.
  destruct (goroutine_runs_to_its_end join watched (after returned_not_sent))
    as (_ & H & _); [apply prompt_after; vm_compute; reflexivity|].
  apply (H 0%nat (Some Canceled)). vm_compute. reflexivity.
Defined.

Lemma certs_Times_observed_witness :
  exists r, In r [polled 100 100; polled 100 200] /\ observed (at_second 200) r.
Proof.
  apply (certs_Times_sends_observed_times join watched
           [polled 100 100; polled 100 200] 1%nat (at_second 200)).
  vm_compute. reflexivity.
Defined.

Lemma FromCommand_delivers_witness :
  certs_FromCommand parse_any
    [piped (mkKeyPair "chain 1" "key 1"); mkDecoding (inr EOF) Ready;
     piped (mkKeyPair "chain 2" "key 2")]
  = mkProducer (failure parse_any (mkDecoding (inr EOF) Ready)) true
               (omap (parsed parse_any) [piped (mkKeyPair "chain 1" "key 1")]) true.
Proof.
  destruct (FromCommand_delivers_until_failure parse_any
              [piped (mkKeyPair "chain 1" "key 1")] (mkDecoding (inr EOF) Ready)
              [piped (mkKeyPair "chain 2" "key 2")]) as [H _];
    [vm_compute; reflexivity | vm_compute; reflexivity | exact H].
Defined.

Lemma certs_FromDir_reports_witness :
  certs_FromDir join parse_any watched [polled 100 100; abandoned] (Some Canceled)
  = mkProducer (Some Canceled) true
               (omap (handed parse_any) [polled 100 100; abandoned]) true.
Proof.
  apply (certs_FromDir_reports_the_error_of_Times join parse_any watched
           [polled 100 100; abandoned] (Some Canceled)).
  repeat constructor.
Defined.

Lemma certs_FromDir_stops_witness :
  certs_FromDir join parse_any watched
    [polled 100 100; unreadable; polled 200 200] (Some Canceled)
  = mkProducer (Some (Wrapped missing ("reading " ++ certfile join watched))) true
               (omap (handed parse_any) [polled 100 100]) true.
Proof.
  apply (certs_FromDir_stops_at_the_first_failure join parse_any watched
           [polled 100 100] unreadable [polled 200 200]);
    [repeat constructor | reflexivity].
Defined.

Lemma certs_FromDir_ends_witness :
  errptr (certs_FromDir join parse_any watched [polled 100 100]
            (errptr (snd (certs_Times join watched [cancelled_round])))) <> None.
Proof.
  destruct (certs_FromDir_ends_with_an_error join parse_any watched
              [cancelled_round] [polled 100 100]) as (_ & _ & H);
    [vm_compute; reflexivity | exact H].
Defined.

Lemma cmd_certdir_piped_witness :
  certdir_FromCommand parse_any
    (map piped (emitted (cmd_certdir join watched
       [(polled 100 100, None); (polled 100 100, None); (polled 200 200, None)])))
  = out (certdir_FromDir join parse_any watched
           (map fst [(polled 100 100, @None error); (polled 100 100, None);
                     (polled 200 200, None)])).
Proof.
  destruct (cmd_certdir_piped_is_FromDir join parse_any watched
              [(polled 100 100, None); (polled 100 100, None);
               (polled 200 200, None)]) as [_ H];
    [vm_compute; reflexivity | exact H].
Defined.

Lemma cmd_certdir_ends_witness :
  result (cmd_certdir join watched
            ([(polled 100 100, None)] ++ [(cancelled_round, None)])) <> None.
Proof.
  destruct (cmd_certdir_ends_with_its_context join watched
              [(polled 100 100, None)] [] cancelled_round None Canceled) as [H _];
    [reflexivity | exact H].
Defined.

Lemma cmd_certs_piped_witness :
  result (cmd_certs join watched [(polled 100 100, None)] (Some Canceled))
  = Some (Some Canceled).
Proof.
  destruct (cmd_certs_piped_is_FromDir join parse_any watched
              [(polled 100 100, None)] (Some Canceled)) as [H _];
    [vm_compute; reflexivity | exact H].
Defined.
